(** * Mail gateway (server/server.js): a shallow embedding and its properties

    The gateway is one Express application.  Each route handler is embedded
    as a function (or, where it registers callbacks, as a transition system
    over the handler's local variables whose events are the callbacks the
    IMAP library may deliver).  Strings are sequences of ASCII/Latin-1 code
    units; JS numbers that are message counts or sequence numbers are [Z]. *)

From Stdlib Require Import ZArith Bool Ascii String.
From stdpp Require Import gmap strings list pretty sorting.

Local Open Scope Z_scope.
#[local] Set Warnings "-clear-no-such-hyp".

(** ** JavaScript values as the handlers use them *)

Module Js.

(** [!s] is false exactly for a present, non-empty string. *)
Definition truthy (s : option string) : bool :=
  match s with
  | Some (String _ _) => true
  | _ => false
  end.

(** [a || b] on optional strings. *)
Definition or_else (s : option string) (d : string) : string :=
  match s with
  | Some (String c r) => String c r
  | _ => d
  end.

(** Template-literal rendering of an integer. *)
Definition num (z : Z) : string := pretty z.

(** [Array.prototype.join]. *)
Fixpoint join (sep : string) (l : list string) : string :=
  match l with
  | [] => ""
  | [x] => x
  | x :: r => x +:+ sep +:+ join sep r
  end.

End Js.

(** ** Character classes and string primitives of the JS runtime *)

Module Text.

Definition code (c : ascii) : N := N_of_ascii c.

Definition is_upper (c : ascii) : bool := ((65 <=? code c) && (code c <=? 90))%N.
Definition is_lower (c : ascii) : bool := ((97 <=? code c) && (code c <=? 122))%N.
Definition is_digit (c : ascii) : bool := ((48 <=? code c) && (code c <=? 57))%N.

(** [\w] (no [u] flag): ASCII letters, digits and the underscore. *)
Definition is_word (c : ascii) : bool :=
  is_upper c || is_lower c || is_digit c || (code c =? 95)%N.

(** Case folding on the ASCII letters.  The keywords compared against
    below are ASCII; no other code unit folds onto an ASCII letter that
    occurs in them. *)
Definition lower_char (c : ascii) : ascii :=
  if is_upper c then ascii_of_N (code c + 32) else c.

(** [String.prototype.toLowerCase] *)
Fixpoint toLowerCase (s : string) : string :=
  match s with
  | "" => ""
  | String c r => String (lower_char c) (toLowerCase r)
  end.

Definition char_eqb (a b : ascii) : bool := (code a =? code b)%N.

(** Match a literal at the head of [s]; the rest of [s] on success. *)
Fixpoint literal (ci : bool) (pat s : string) : option string :=
  match pat with
  | "" => Some s
  | String p pat' =>
      match s with
      | "" => None
      | String c r =>
          if (if ci then char_eqb (lower_char p) (lower_char c) else char_eqb p c)
          then literal ci pat' r
          else None
      end
  end.

(** [String.prototype.startsWith] *)
Definition startsWith (s pat : string) : bool :=
  match literal false pat s with Some _ => true | None => false end.

(** [s.replace(/re/g, '')] for a regular expression whose match at a
    position, if any, is unique: [m s] is the length of the match of the
    expression at the head of [s].  The scan goes left to right; after a
    match it resumes behind the match ([skip] counts the code units of the
    current match still to drop). *)
Fixpoint remove_from (m : string → option nat) (skip : nat) (s : string) : string :=
  match s with
  | "" => ""
  | String c r =>
      match skip with
      | S k => remove_from m k r
      | O =>
          match m s with
          | Some (S k) => remove_from m k r
          | _ => String c (remove_from m O r)
          end
      end
  end.

Definition remove_all (m : string → option nat) (s : string) : string :=
  remove_from m O s.

(** Does the expression match anywhere in [s]? *)
Fixpoint occurs (m : string → option nat) (s : string) : bool :=
  match m s with
  | Some _ => true
  | None => match s with "" => false | String _ r => occurs m r end
  end.

(** [s.replace(/c/g, by)] for a single character [c]. *)
Fixpoint replace_char (c : ascii) (by_ : string) (s : string) : string :=
  match s with
  | "" => ""
  | String d r =>
      if char_eqb c d then by_ +:+ replace_char c by_ r
      else String d (replace_char c by_ r)
  end.

End Text.

(** ** Responses

    Every handler answers with [res.status(c).json(body)] ([c] = 200 when
    [res.json] is called directly).  [partial = false] stands for a body
    without the [partial] field. *)

Record Address := { name : string; address : string }.

(** A JS [Date]: a time value in milliseconds, or the invalid date whose
    [getTime()] is NaN. *)
Inductive JsDate := Valid (ms : Z) | Invalid.

Record Summary := {
  id : string;
  uid : option string;
  subject : string;
  from : Address;
  to : list Address;
  date : JsDate;
  body : string;
  isRead : bool;
  hasAttachments : bool
}.

Record Folder := {
  folder_id : string;
  folder_name : string;
  folder_path : string;
  unread : Z
}.

Inductive Payload :=
| Error (error : string)
| Emails (emails : list Summary) (partial : bool)
| Email (email : Summary) (partial : bool)
| Folders (folders : list Folder)
| MessageId (messageId : string).

Record Response := { status : Z; success : bool; payload : Payload }.

Definition ok (p : Payload) : Response :=
  {| status := 200; success := true; payload := p |}.

Definition fail (code : Z) (msg : string) : Response :=
  {| status := code; success := false; payload := Error msg |}.

(** ** Session registry and the entry of the five session-bearing routes *)

Module Session.

(** The part of an IMAP handle the handlers read back ([imap._config]). *)
Record Imap := { user : string; password : string; host : string }.

(** What a handler does to the connection it resolved. *)
Inductive ConnOp :=
| GetBoxes
| OpenBox (folder : option string) (readOnly : bool)
| ReadConfig.

Inductive Endpoint := folders | emails | email_by_id | send_email | forward_email.

(** [req.query] / [req.body]: the fields the entry code destructures. *)
Record Request := { sessionId : option string; folder : option string }.

(** What has happened when the handler's synchronous prefix returns. *)
Record Entry := { touched : list (Imap * ConnOp); replied : option Response }.

Definition invalid_session : Response := fail 401 "Ungültige Session".

(** [!sessionId || !activeConnections.has(sessionId)] *)
Definition rejects (activeConnections : gmap string Imap) (sid : option string) : bool :=
  negb (Js.truthy sid) ||
  match sid with
  | Some s => negb (bool_decide (is_Some (activeConnections !! s)))
  | None => true
  end.

Definition get (activeConnections : gmap string Imap) (sid : option string) : option Imap :=
  s ← sid; activeConnections !! s.

(** [const { folder = 'INBOX' } = req.query] *)
Definition folder_or_inbox (r : Request) : option string :=
  Some (default "INBOX" (folder r)).

Definition enter_folders (reg : gmap string Imap) (r : Request) : Entry :=
  if rejects reg (sessionId r)
  then {| touched := []; replied := Some invalid_session |}
  else match get reg (sessionId r) with
       | Some imap => {| touched := [(imap, GetBoxes)]; replied := None |}
       | None => {| touched := []; replied := None |}
       end.

Definition enter_emails (reg : gmap string Imap) (r : Request) : Entry :=
  if rejects reg (sessionId r)
  then {| touched := []; replied := Some invalid_session |}
  else match get reg (sessionId r) with
       | Some imap =>
           {| touched := [(imap, OpenBox (folder_or_inbox r) false)]; replied := None |}
       | None => {| touched := []; replied := None |}
       end.

Definition enter_email_by_id (reg : gmap string Imap) (r : Request) : Entry :=
  if rejects reg (sessionId r)
  then {| touched := []; replied := Some invalid_session |}
  else match get reg (sessionId r) with
       | Some imap =>
           {| touched := [(imap, OpenBox (folder_or_inbox r) false)]; replied := None |}
       | None => {| touched := []; replied := None |}
       end.

Definition enter_send_email (reg : gmap string Imap) (r : Request) : Entry :=
  if rejects reg (sessionId r)
  then {| touched := []; replied := Some invalid_session |}
  else match get reg (sessionId r) with
       | Some imap => {| touched := [(imap, ReadConfig)]; replied := None |}
       | None => {| touched := []; replied := None |}
       end.

Definition enter_forward_email (reg : gmap string Imap) (r : Request) : Entry :=
  if rejects reg (sessionId r)
  then {| touched := []; replied := Some invalid_session |}
  else match get reg (sessionId r) with
       | Some imap => {| touched := [(imap, OpenBox (folder r) false)]; replied := None |}
       | None => {| touched := []; replied := None |}
       end.

Definition enter (e : Endpoint) : gmap string Imap → Request → Entry :=
  match e with
  | folders => enter_folders
  | emails => enter_emails
  | email_by_id => enter_email_by_id
  | send_email => enter_send_email
  | forward_email => enter_forward_email
  end.

(** The claim's precondition: no id (absent or empty), or an id the
    registry does not hold. *)
Definition unregistered (reg : gmap string Imap) (sid : option string) : Prop :=
  match sid with
  | None => True
  | Some s => s = "" ∨ reg !! s = None
  end.

End Session.

(** ** Listing pipeline: the range of [GET /api/emails] *)

Module Listing.

Definition lastCount (total : Z) : Z := Z.min 30 total.

Definition start (total : Z) : Z := Z.max 1 (total - lastCount total + 1).

(** [`${start}:${box.messages.total}`] *)
Definition range (total : Z) : string :=
  Js.num (start total) +:+ ":" +:+ Js.num total.

(** What the [openBox] callback does once the box is open. *)
Inductive Opened :=
| Reply (r : Response)
| SeqFetch (range : string).

Definition on_open (total : Z) : Opened :=
  if total =? 0 then Reply (ok (Emails [] false))
  else SeqFetch (range total).

(** *** Attachment detection over the BODYSTRUCTURE tree *)

Record Disposition := { type : string }.
Record Params := { pname : option string }.

(** A structure is an array of structures or a part object. *)
#[warnings="-register-all"] Inductive Struct :=
| Arr (items : list Struct)
| Part (disposition : option Disposition) (params : option Params)
       (parts : option (list Struct)).

(** [['attachment','inline'].includes(struct.disposition.type.toLowerCase())] *)
Definition disposition_hit (d : option Disposition) : bool :=
  match d with
  | Some d =>
      bool_decide (Text.toLowerCase (type d) = "attachment")
      || bool_decide (Text.toLowerCase (type d) = "inline")
  | None => false
  end.

(** [struct.params && struct.params.name] *)
Definition name_hit (p : option Params) : bool :=
  match p with
  | Some p => Js.truthy (pname p)
  | None => false
  end.

(** The array [attachments] is threaded through: the result is the array
    after the call. *)
Fixpoint findAttachmentParts (struct : Struct) (attachments : list Struct)
  : list Struct :=
  match struct with
  | Arr items =>
      fold_left (λ acc item, findAttachmentParts item acc) items attachments
  | Part d p ps =>
      let a1 := if disposition_hit d then attachments ++ [struct] else attachments in
      let a2 := if name_hit p then a1 ++ [struct] else a1 in
      match ps with
      | Some l => fold_left (λ acc part, findAttachmentParts part acc) l a2
      | None => a2
      end
  end.

Record Attrs := {
  attr_uid : option Z;
  flags : option (list string);
  struct : option Struct
}.

(** [if (attrs.struct) { ...; email.hasAttachments = attachments.length > 0 }]
    on an email whose [hasAttachments] starts as [false]. *)
Definition detect (s : option Struct) (before : bool) : bool :=
  match s with
  | Some st => bool_decide (0 < length (findAttachmentParts st []))%nat
  | None => before
  end.

(** The part objects of a tree, at any depth. *)
Fixpoint nodes (s : Struct) : list Struct :=
  match s with
  | Arr items => flat_map nodes items
  | Part _ _ ps =>
      s :: match ps with Some l => flat_map nodes l | None => [] end
  end.

(** The claim's test on one node. *)
Definition counts_as_attachment (s : Struct) : Prop :=
  match s with
  | Part d p _ =>
      (∃ disp, d = Some disp ∧
         (Text.toLowerCase (type disp) = "attachment"
          ∨ Text.toLowerCase (type disp) = "inline"))
      ∨ (∃ pr n, p = Some pr ∧ pname pr = Some n ∧ n ≠ "")
  | Arr _ => False
  end.

(** *** The fetch callbacks and the watchdog *)

(** The header fields after the lenient parse of the [body] stream:
    [None] where the header is missing or empty. *)
Record Header := {
  h_subject : option string;
  h_from : option Address;
  h_to : option (list Address);
  h_date : option JsDate
}.

(** The summary a [message] event builds: the initial object, then the
    [attributes] handler (when attributes arrive), then the [body] handler
    (when a header block arrives).  [now] is the clock read by
    [new Date()]. *)
Definition fresh (seqno : Z) (now : Z) : Summary :=
  {| id := Js.num seqno; uid := None; subject := "";
     from := {| name := ""; address := "" |};
     to := [{| name := ""; address := "" |}];
     date := Valid now; body := ""; isRead := true; hasAttachments := false |}.

Definition on_attributes (attrs : Attrs) (e : Summary) : Summary :=
  let with_uid :=
    match attr_uid attrs with
    | Some u => if u =? 0 then (uid e, id e) else (Some (Js.num u), Js.num u)
    | None => (uid e, id e)
    end in
  {| id := with_uid.2; uid := with_uid.1; subject := subject e;
     from := from e; to := to e; date := date e; body := body e;
     isRead := bool_decide ("\Seen" ∈ default [] (flags attrs));
     hasAttachments := detect (struct attrs) (hasAttachments e) |}.

Definition on_body (now : Z) (h : Header) (e : Summary) : Summary :=
  {| id := id e; uid := uid e;
     subject := Js.or_else (h_subject h) (subject e);
     from := default (from e) (h_from h);
     to := default (to e) (h_to h);
     date := match h_date h with
             | Some (Valid ms) => Valid ms
             | Some Invalid => Valid now
             | None => date e
             end;
     body := body e; isRead := isRead e; hasAttachments := hasAttachments e |}.

Record Message := {
  seqno : Z;
  now : Z;
  attrs : option Attrs;
  header : option Header
}.

Definition summarize (m : Message) : Summary :=
  let e0 := fresh (seqno m) (now m) in
  let e1 := match attrs m with Some a => on_attributes a e0 | None => e0 end in
  match header m with Some h => on_body (now m) h e1 | None => e1 end.

(** [parseInt] on the decimal ids produced above; [None] is NaN. *)
Fixpoint digits (acc : option Z) (s : string) : option Z :=
  match s with
  | "" => acc
  | String c r =>
      if Text.is_digit c
      then digits (Some (10 * default 0 acc + Z.of_N (Text.code c - 48))) r
      else acc
  end.

Definition parseInt (s : string) : option Z :=
  match s with
  | String "-" r => Z.opp <$> digits None r
  | _ => digits None s
  end.

(** The comparator of [emails.sort]; a NaN result counts as 0. *)
Definition compare (a b : Summary) : Z :=
  match date a, date b with
  | Valid da, Valid db => db - da
  | _, _ =>
      match parseInt (id b), parseInt (id a) with
      | Some ib, Some ia => ib - ia
      | _, _ => 0
      end
  end.

(** [Array.prototype.sort] is stable; it is embedded as insertion sort. *)
Fixpoint insert (x : Summary) (l : list Summary) : list Summary :=
  match l with
  | [] => [x]
  | y :: r => if compare x y <=? 0 then x :: l else y :: insert x r
  end.

Definition sort (l : list Summary) : list Summary := foldr insert [] l.

(** The closure variables of one request, the state of its timer and of
    its two [once] listeners, and the responses written so far. *)
Record State := {
  hasResponded : bool;
  collected : list Summary;
  timer : bool;
  error_listener : bool;
  end_listener : bool;
  sent : list Response
}.

Inductive Event :=
| Timeout
| MessageEnd (m : Message)
| FetchError (message : string)
| FetchEnd.

Definition init : State :=
  {| hasResponded := false; collected := []; timer := true;
     error_listener := true; end_listener := true; sent := [] |}.

Definition timeout_error : string := "Zeitüberschreitung beim Abrufen der E-Mails".

Definition on_timeout (s : State) : State :=
  if negb (timer s) then s
  else if hasResponded s
  then {| hasResponded := true; collected := collected s; timer := false;
          error_listener := error_listener s; end_listener := end_listener s;
          sent := sent s |}
  else {| hasResponded := true; collected := collected s; timer := false;
          error_listener := error_listener s; end_listener := end_listener s;
          sent := sent s ++
            [if bool_decide (0 < length (collected s))%nat
             then ok (Emails (collected s) true)
             else fail 500 timeout_error] |}.

Definition on_message_end (m : Message) (s : State) : State :=
  {| hasResponded := hasResponded s; collected := collected s ++ [summarize m];
     timer := timer s; error_listener := error_listener s;
     end_listener := end_listener s; sent := sent s |}.

Definition on_error (message : string) (s : State) : State :=
  if negb (error_listener s) then s
  else if hasResponded s
  then {| hasResponded := true; collected := collected s; timer := timer s;
          error_listener := false; end_listener := end_listener s;
          sent := sent s |}
  else {| hasResponded := true; collected := collected s; timer := false;
          error_listener := false; end_listener := end_listener s;
          sent := sent s ++
            [if bool_decide (0 < length (collected s))%nat
             then ok (Emails (collected s) true)
             else fail 500 message] |}.

Definition on_end (s : State) : State :=
  if negb (end_listener s) then s
  else if hasResponded s
  then {| hasResponded := true; collected := collected s; timer := false;
          error_listener := error_listener s; end_listener := false;
          sent := sent s |}
  else {| hasResponded := true; collected := sort (collected s); timer := false;
          error_listener := error_listener s; end_listener := false;
          sent := sent s ++ [ok (Emails (sort (collected s)) false)] |}.

Definition step (s : State) (e : Event) : State :=
  match e with
  | Timeout => on_timeout s
  | MessageEnd m => on_message_end m s
  | FetchError message => on_error message s
  | FetchEnd => on_end s
  end.

Definition run (s : State) (evs : list Event) : State := foldl step s evs.


(** The messages whose [end] event a trace delivers, in order. *)
Definition ended (evs : list Event) : list Message :=
  omap (λ e, match e with MessageEnd m => Some m | _ => None end) evs.

End Listing.

(** The invariant of the listing callbacks: a response has been written
    exactly when [hasResponded] is set, and until then the watchdog is armed
    and the [end] listener is still registered. *)
Definition listing_inv (s : Listing.State) : Prop :=
  if Listing.hasResponded s then length (Listing.sent s) = 1%nat
  else Listing.sent s = [] ∧ Listing.timer s = true
       ∧ Listing.end_listener s = true.

(** ** Single-message pipeline: [GET /api/email/:id] *)

Module Single.

(** *** The three regular expressions of the sanitizer *)

(** The script expression (flags [g] and [i]) reads: [<script\b], then
    [[^<]*], then any number of groups [(?!<\/script>)<[^<]*], then
    [<\/script>].  This is its tail behind the word boundary.  Every step of it is
    forced: a run of units other than [<] must be maximal because a [<]
    has to follow, and at a [<] the group may iterate only when the
    closing tag does not start there. *)
Fixpoint to_closing_tag (s : string) : option nat :=
  match s with
  | "" => None
  | String c r =>
      if Text.char_eqb c "<"
      then match Text.literal true "</script>" s with
           | Some _ => Some 9%nat
           | None => S <$> to_closing_tag r
           end
      else S <$> to_closing_tag r
  end.

(** [\b] behind the [t] of [<script]: end of input or a non-word unit. *)
Definition boundary (s : string) : bool :=
  match s with
  | "" => true
  | String c _ => negb (Text.is_word c)
  end.

(** The script expression at the head of [s]: the length of the match. *)
Definition script_block (s : string) : option nat :=
  match Text.literal true "<script" s with
  | Some r => if boundary r then Nat.add 7 <$> to_closing_tag r else None
  | None => None
  end.

(** [\w+], greedy: the length of the maximal run and what follows it. *)
Fixpoint word_run (s : string) : nat * string :=
  match s with
  | "" => (O, s)
  | String c r =>
      if Text.is_word c
      then let '(n, rest) := word_run r in (S n, rest)
      else (O, s)
  end.

(** Any run of units other than the quote [q], then [q]: the length up to
    and including the first [q]. *)
Fixpoint through_quote (q : ascii) (s : string) : option nat :=
  match s with
  | "" => None
  | String c r =>
      if Text.char_eqb c q then Some 1%nat else S <$> through_quote q r
  end.

(** The handler expression for the quote [q] at the head of [s]: [on],
    a maximal non-empty run of word units, [=], [q], any run of units
    other than [q], [q]. *)
Definition handler_attr (q : ascii) (s : string) : option nat :=
  match Text.literal false "on" s with
  | Some r =>
      match word_run r with
      | (S n, String e (String q' v)) =>
          if Text.char_eqb e "=" && Text.char_eqb q' q
          then (λ k, 2 + S n + 2 + k)%nat <$> through_quote q v
          else None
      | _ => None
      end
  | None => None
  end.

Definition dquote : ascii := "034".
Definition squote : ascii := "'".

(** The three chained [replace] calls. *)
Definition strip (html : string) : string :=
  Text.remove_all (handler_attr squote)
    (Text.remove_all (handler_attr dquote)
       (Text.remove_all script_block html)).

(** *** The parsed message and the body sent back *)

Record Mailbox := { mb_name : option string; mb_address : option string }.
Record AddressObject := { value : list Mailbox; text_ : string }.

Record Parsed := {
  p_subject : option string;
  p_from : option AddressObject;
  p_to : option AddressObject;
  p_date : option JsDate;
  text : option string;
  html : option string;
  textAsHtml : option string;
  attachments : option (list string)
}.

Definition no_content : string := "<p>Diese E-Mail enthält keinen Inhalt</p>".

Definition escape (t : string) : string :=
  Text.replace_char ">" "&gt;"
    (Text.replace_char "<" "&lt;" (Text.replace_char "&" "&amp;" t)).

(** The [if / else if] chain computing [sanitizedHtml]. *)
Definition sanitizedHtml (parsed : Parsed) : string :=
  match html parsed with
  | Some (String c r) => strip (String c r)
  | _ =>
      match textAsHtml parsed with
      | Some (String c r) => String c r
      | _ =>
          match text parsed with
          | Some (String c r) => "<pre>" +:+ escape (String c r) +:+ "</pre>"
          | _ => no_content
          end
      end
  end.

Definition address_of (m : Mailbox) : Address :=
  {| name := Js.or_else (mb_name m) ""; address := Js.or_else (mb_address m) "" |}.

Definition emailData (id : string) (now : Z) (parsed : Parsed) : Summary :=
  {| id := id; uid := None;
     subject := Js.or_else (p_subject parsed) "Kein Betreff";
     from := match p_from parsed with
             | Some a => match value a with
                         | m :: _ => address_of m
                         | [] => {| name := ""; address := "" |}
                         end
             | None => {| name := ""; address := "" |}
             end;
     to := match p_to parsed with
           | Some a => address_of <$> value a
           | None => []
           end;
     date := default (Valid now) (p_date parsed);
     body := sanitizedHtml parsed;
     isRead := true;
     hasAttachments := match attachments parsed with
                       | Some (_ :: _) => true
                       | _ => false
                       end |}.

Definition fallbackEmail (id : string) (now : Z) (message : string) : Summary :=
  {| id := id; uid := None; subject := "Fehler beim Parsen der E-Mail";
     from := {| name := ""; address := "" |}; to := [];
     date := Valid now;
     body := "<div class=" +:+ String dquote "error-message" +:+ String dquote ">
                                <h3>Diese E-Mail konnte nicht vollständig geladen werden</h3>
                                <p>Die E-Mail ist möglicherweise zu groß oder enthält nicht unterstützte Inhalte.</p>
                                <p>Technische Details: " +:+ message +:+ "</p>
                              </div>";
     isRead := true; hasAttachments := false |}.

(** *** The callbacks of one request

    The state is the handler's closure ([hasResponded], [fetchCompleted],
    [fetchStarted]), the watchdog timer, the [once] listeners of the UID
    fetch and of the sequence-number fetches created by its [error] and
    [end] listeners, the write calls ([res.json], [res.status(c).json])
    made so far with the response each asks for, and the [setFlags] calls
    made.  What the client receives of the write calls is decided by the
    response object: see [Express.wire]. *)

Inductive Fallback := ViaError | ViaEnd.

Record State := {
  hasResponded : bool;
  fetchCompleted : bool;
  fetchStarted : bool;
  timer : bool;
  uid_error_listener : bool;
  uid_end_listener : bool;
  (** listeners [(error, end)] of the fetch created in the [error] listener *)
  seq_via_error : option (bool * bool);
  (** listener [end] of the fetch created in the [end] listener *)
  seq_via_end : option bool;
  sent : list Response;
  flagged : list string
}.

Inductive Event :=
| Timeout
| Parsed_ (now : Z) (parsed : Parsed)
| ParsedToArray (now : Z) (parsed : Parsed)
| ParseFailed (now : Z) (message : string)
| StreamThrew (message : string)
| UidError (message : string) (seq_throws : option string)
| UidEnd (seq_throws : option string)
| SeqMessage (f : Fallback) (parsed : Parsed)
| SeqError (f : Fallback) (message : string)
| SeqEnd (f : Fallback).

Definition init : State :=
  {| hasResponded := false; fetchCompleted := false; fetchStarted := true;
     timer := true; uid_error_listener := true; uid_end_listener := true;
     seq_via_error := None; seq_via_end := None; sent := []; flagged := [] |}.

Definition timeout_error : string :=
  "Zeitüberschreitung beim Laden der E-Mail. Die E-Mail könnte zu groß sein.".

Definition not_found : Response := fail 404 "E-Mail nicht gefunden".

(** [res...json(r)] alone. *)
Definition write (r : Response) (s : State) : State :=
  {| hasResponded := hasResponded s; fetchCompleted := fetchCompleted s;
     fetchStarted := fetchStarted s; timer := timer s;
     uid_error_listener := uid_error_listener s;
     uid_end_listener := uid_end_listener s;
     seq_via_error := seq_via_error s; seq_via_end := seq_via_end s;
     sent := sent s ++ [r]; flagged := flagged s |}.

(** [hasResponded = true; clearTimeout(timeout); res...json(r)] *)
Definition respond (r : Response) (s : State) : State :=
  {| hasResponded := true; fetchCompleted := fetchCompleted s;
     fetchStarted := fetchStarted s; timer := false;
     uid_error_listener := uid_error_listener s;
     uid_end_listener := uid_end_listener s;
     seq_via_error := seq_via_error s; seq_via_end := seq_via_end s;
     sent := sent s ++ [r]; flagged := flagged s |}.

Definition set_timer (b : bool) (s : State) : State :=
  {| hasResponded := hasResponded s; fetchCompleted := fetchCompleted s;
     fetchStarted := fetchStarted s; timer := b;
     uid_error_listener := uid_error_listener s;
     uid_end_listener := uid_end_listener s;
     seq_via_error := seq_via_error s; seq_via_end := seq_via_end s;
     sent := sent s; flagged := flagged s |}.

(** [fetchCompleted = true], and the [setFlags] call when [seen] is given. *)
Definition complete (seen : option string) (s : State) : State :=
  {| hasResponded := hasResponded s; fetchCompleted := true;
     fetchStarted := fetchStarted s; timer := timer s;
     uid_error_listener := uid_error_listener s;
     uid_end_listener := uid_end_listener s;
     seq_via_error := seq_via_error s; seq_via_end := seq_via_end s;
     sent := sent s;
     flagged := match seen with Some i => flagged s ++ [i] | None => flagged s end |}.

Definition set_listeners (ue un : bool) (se : option (bool * bool))
    (sn : option bool) (s : State) : State :=
  {| hasResponded := hasResponded s; fetchCompleted := fetchCompleted s;
     fetchStarted := fetchStarted s; timer := timer s;
     uid_error_listener := ue; uid_end_listener := un;
     seq_via_error := se; seq_via_end := sn;
     sent := sent s; flagged := flagged s |}.

Section Request.
(** [req.params.id] *)
Variable id : string.

(** The watchdog callback: it writes the 504 without reading or
    setting [hasResponded]. *)
Definition on_timeout (s : State) : State :=
  if timer s then write (fail 504 timeout_error) (set_timer false s) else s.

(** [simpleParser(...).then(parsed => ...)] for a message whose
    [parsed.to] is absent or one address object. *)
Definition on_parsed (now : Z) (parsed : Parsed) (s : State) : State :=
  if fetchCompleted s then s
  else
    let s1 := complete (Some id) s in
    if hasResponded s1 then s1
    else respond (ok (Email (emailData id now parsed) false)) s1.

(** [simpleParser(...).then(parsed => ...)] for a message with several
    [To] headers: [parsed.to] is then an array of address objects
    ([parsed] holds the other fields).  [fetchCompleted] is set and the
    html is sanitized, then [parsed.to.value.map] throws; the [catch]
    callback finds [fetchCompleted] set and does nothing, so neither
    [setFlags] nor a write call is made. *)
Definition on_parsed_to_array (now : Z) (parsed : Parsed) (s : State) : State :=
  if fetchCompleted s then s else complete None s.

(** [simpleParser(...).catch(err => ...)] *)
Definition on_parse_failed (now : Z) (message : string) (s : State) : State :=
  if negb (hasResponded s) && negb (fetchCompleted s)
  then respond (ok (Email (fallbackEmail id now message) true)) (complete None s)
  else s.

(** The [catch] around the body of the stream's [end] listener. *)
Definition on_stream_threw (message : string) (s : State) : State :=
  if hasResponded s then s else respond (fail 500 message) s.

(** [fetch.once('error', ...)]: the sequence-number fetch it creates gets
    an [error] and an [end] listener and no [message] listener. *)
Definition on_uid_error (seq_throws : option string) (s : State) : State :=
  if negb (uid_error_listener s) then s
  else
    let s1 := set_listeners false (uid_end_listener s)
                (seq_via_error s) (seq_via_end s) s in
    if negb (hasResponded s1) && negb (fetchCompleted s1)
    then match seq_throws with
         | Some m => if hasResponded s1 then s1 else respond (fail 500 m) s1
         | None => set_listeners false (uid_end_listener s1)
                     (Some (true, true)) (seq_via_end s1) s1
         end
    else s1.

(** [fetch.once('end', ...)]: the sequence-number fetch it creates gets
    an [end] listener only. *)
Definition on_uid_end (seq_throws : option string) (s : State) : State :=
  if negb (uid_end_listener s) then s
  else
    let s1 := set_listeners (uid_error_listener s) false
                (seq_via_error s) (seq_via_end s) s in
    if negb (hasResponded s1) && negb (fetchCompleted s1) && fetchStarted s1
    then match seq_throws with
         | Some m => if hasResponded s1 then s1 else respond (fail 500 m) s1
         | None => set_listeners (uid_error_listener s1) false
                     (seq_via_error s1) (Some true) s1
         end
    else s1.

Definition on_seq_error (f : Fallback) (message : string) (s : State) : State :=
  match f, seq_via_error s with
  | ViaError, Some (true, en) =>
      let s1 := set_listeners (uid_error_listener s) (uid_end_listener s)
                  (Some (false, en)) (seq_via_end s) s in
      if hasResponded s1 then s1 else respond (fail 500 message) s1
  | _, _ => s
  end.

Definition seq_end_body (s : State) : State :=
  if negb (hasResponded s) && negb (fetchCompleted s)
  then respond not_found s else s.

Definition on_seq_end (f : Fallback) (s : State) : State :=
  match f with
  | ViaError =>
      match seq_via_error s with
      | Some (er, true) =>
          seq_end_body
            (set_listeners (uid_error_listener s) (uid_end_listener s)
               (Some (er, false)) (seq_via_end s) s)
      | _ => s
      end
  | ViaEnd =>
      match seq_via_end s with
      | Some true =>
          seq_end_body
            (set_listeners (uid_error_listener s) (uid_end_listener s)
               (seq_via_error s) (Some false) s)
      | _ => s
      end
  end.

Definition step (s : State) (e : Event) : State :=
  match e with
  | Timeout => on_timeout s
  | Parsed_ now parsed => on_parsed now parsed s
  | ParsedToArray now parsed => on_parsed_to_array now parsed s
  | ParseFailed now message => on_parse_failed now message s
  | StreamThrew message => on_stream_threw message s
  | UidError _ seq_throws => on_uid_error seq_throws s
  | UidEnd seq_throws => on_uid_end seq_throws s
  | SeqMessage _ _ => s
  | SeqError f message => on_seq_error f message s
  | SeqEnd f => on_seq_end f s
  end.

Definition run (s : State) (evs : list Event) : State := foldl step s evs.
End Request.

(** The events that carry the outcome of parsing a message of the UID
    fetch. *)
Definition from_uid_message (e : Event) : bool :=
  match e with
  | Parsed_ _ _ | ParseFailed _ _ => true
  | _ => false
  end.

End Single.

(** ** Folder lister: [GET /api/folders] *)

Module FolderLister.

(** A mailbox as [imap.getBoxes] reports it: the server's hierarchy
    delimiter and the children object ([None] for [null]).  An object of
    boxes is the list of its keys, in [Object.keys] order, with their
    values. *)
#[warnings="-register-all"] Inductive Box :=
| MkBox (delimiter : string) (children : option (list (string * Box))).

Definition delimiter (b : Box) : string := let 'MkBox d _ := b in d.
Definition children (b : Box) : option (list (string * Box)) :=
  let 'MkBox _ c := b in c.

(** [path ? `${path}${box}` : box] *)
Definition fullPath (path box : string) : string :=
  match path with
  | "" => box
  | _ => path +:+ box
  end.

Definition entry (box full : string) : Folder :=
  {| folder_id := full; folder_name := box; folder_path := full; unread := 0 |}.

(** One iteration of the [forEach] in [processBoxes] (the call for the
    key [box] with value [b]); the array [folders] is threaded through. *)
Fixpoint processBox (box : string) (b : Box) (path : string)
    (folders : list Folder) : list Folder :=
  let full := fullPath path box in
  let pushed := folders ++ [entry box full] in
  match b with
  | MkBox _ (Some ch) =>
      (fix each (l : list (string * Box)) (acc : list Folder) : list Folder :=
         match l with
         | [] => acc
         | (k, c) :: r => each r (processBox k c (full +:+ "/") acc)
         end) ch pushed
  | MkBox _ None => pushed
  end.

Fixpoint processBoxes (boxObj : list (string * Box)) (path : string)
    (folders : list Folder) : list Folder :=
  match boxObj with
  | [] => folders
  | (k, c) :: r => processBoxes r path (processBox k c path folders)
  end.

(** The body of the [getBoxes] callback on success. *)
Definition list_folders (boxes : list (string * Box)) : Response :=
  ok (Folders (processBoxes boxes "" [])).

(** Every node of the tree in the order visited, as the names on the way
    from the root (outermost first) down to the node itself. *)
Fixpoint chains_of (box : string) (b : Box) (above : list string)
  : list (list string) :=
  (above ++ [box]) ::
  match b with
  | MkBox _ (Some ch) =>
      (fix each (l : list (string * Box)) : list (list string) :=
         match l with
         | [] => []
         | (k, c) :: r => chains_of k c (above ++ [box]) ++ each r
         end) ch
  | MkBox _ None => []
  end.

Fixpoint chains (boxObj : list (string * Box)) (above : list string)
  : list (list string) :=
  match boxObj with
  | [] => []
  | (k, c) :: r => chains_of k c above ++ chains r above
  end.

(** The [path] argument the walk carries below the names [above]. *)
Definition path_above (above : list string) : string :=
  match above with
  | [] => ""
  | _ => Js.join "/" above +:+ "/"
  end.

(** The entry the claim describes for a node, for a given separator. *)
Definition entry_for (sep : string) (chain : list string) : Folder :=
  entry (List.last chain "") (Js.join sep chain).

(** Following the spec's words: the path of a node joins the names with
    the delimiter that the server reports for each ancestor. *)
Fixpoint spec_entries_of (box : string) (b : Box) (prefix : string)
  : list Folder :=
  entry box (prefix +:+ box) ::
  match b with
  | MkBox d (Some ch) =>
      (fix each (l : list (string * Box)) : list Folder :=
         match l with
         | [] => []
         | (k, c) :: r => spec_entries_of k c (prefix +:+ box +:+ d) ++ each r
         end) ch
  | MkBox _ None => []
  end.

Fixpoint spec_entries (boxObj : list (string * Box)) : list Folder :=
  match boxObj with
  | [] => []
  | (k, c) :: r => spec_entries_of k c "" ++ spec_entries r
  end.

(** A tree all of whose nodes report the delimiter ["/"]. *)
Fixpoint slash_only (b : Box) : bool :=
  match b with
  | MkBox d ch =>
      bool_decide (d = "/")
      && match ch with
         | Some l =>
             (fix each (l : list (string * Box)) : bool :=
                match l with
                | [] => true
                | (_, c) :: r => slash_only c && each r
                end) l
         | None => true
         end
  end.

Fixpoint all_slash_only (boxObj : list (string * Box)) : bool :=
  match boxObj with
  | [] => true
  | (_, c) :: r => slash_only c && all_slash_only r
  end.

End FolderLister.

(** ** Outbound dispatcher: [POST /api/forward-email] *)

Module Forward.

Import Session.

Definition newline : ascii := "010".

(** [s.replace(pat, by)] with a string pattern: the first occurrence. *)
Fixpoint replace_first (pat by_ s : string) : string :=
  match Text.literal false pat s with
  | Some rest => by_ +:+ rest
  | None =>
      match s with
      | "" => ""
      | String c r => String c (replace_first pat by_ r)
      end
  end.

(** A recipient field of the request body: a string or an array. *)
Inductive Recipients := One (s : string) | Many (l : list string).

Record Body := {
  originalEmailId : string;
  folder : option string;
  to : option Recipients;
  cc : option Recipients;
  bcc : option Recipients;
  additionalText : option string
}.

(** [Array.isArray(x) ? x.join(',') : x] *)
Definition joined (r : Recipients) : string :=
  match r with
  | One s => s
  | Many l => Js.join "," l
  end.

(** [x ? (Array.isArray(x) ? x.join(',') : x) : undefined] *)
Definition joined_if_set (r : option Recipients) : option string :=
  match r with
  | Some (One "") => None
  | Some x => Some (joined x)
  | None => None
  end.

Record Transport := {
  smtp_host : string; smtp_port : Z; smtp_secure : bool;
  auth_user : string; auth_pass : string
}.

Record MailOptions := {
  m_from : string;
  m_to : option string;
  m_cc : option string;
  m_bcc : option string;
  m_subject : string;
  m_text : string;
  m_html : string;
  m_attachments : list string
}.

(** The placeholder assigned when the fetch ends with [originalEmail]
    still unset.  (An address object of the placeholder has only its
    [text]; the empty [value] stands for the missing field.) *)
Definition placeholder (now : Z) : Single.Parsed :=
  {| Single.p_subject := Some "Unbekannter Betreff";
     Single.p_from := Some {| Single.value := []; Single.text_ := "Unbekannt" |};
     Single.p_to := Some {| Single.value := []; Single.text_ := "Unbekannt" |};
     Single.p_date := Some (Valid now);
     Single.text := Some "";
     Single.html := Some "";
     Single.textAsHtml := None;
     Single.attachments := None |}.

(** *** The promise that fetches the original *)

Inductive Event :=
| OpenBoxError (message : string)
| MessageParsed (parsed : Single.Parsed)
| MessageParseError (message : string)
| FetchError (message : string)
| FetchEnd (now : Z).

Inductive Settled := Resolved (original : Single.Parsed) | Rejected (message : string).

(** [originalEmail] and the state of the promise; a promise settles
    once, and the code behind [await] reads [originalEmail] as it is when
    the settling callback returns. *)
Record Pending := { originalEmail : option Single.Parsed; settled : option Settled }.

Definition settle (o : option Single.Parsed) (r : Settled) (st : Pending) : Pending :=
  {| originalEmail := o;
     settled := match settled st with Some x => Some x | None => Some r end |}.

Definition step (st : Pending) (e : Event) : Pending :=
  match e with
  | OpenBoxError m => settle (originalEmail st) (Rejected m) st
  | MessageParsed p => settle (Some p) (Resolved p) st
  | MessageParseError m => settle (originalEmail st) (Rejected m) st
  | FetchError m => settle (originalEmail st) (Rejected m) st
  | FetchEnd now =>
      let o := match originalEmail st with
               | Some p => p
               | None => placeholder now
               end in
      settle (Some o) (Resolved o) st
  end.

Definition await (evs : list Event) : option Settled :=
  settled (foldl step {| originalEmail := None; settled := None |} evs).

(** *** Composing and sending *)

Section Compose.
(** [Date.prototype.toLocaleString] and the clock. *)
Variable toLocaleString : JsDate → string.
Variable now : Z.

Definition from_text (o : Single.Parsed) : string :=
  Js.or_else (Single.text_ <$> Single.p_from o) "Unbekannt".
Definition to_text (o : Single.Parsed) : string :=
  Js.or_else (Single.text_ <$> Single.p_to o) "Unbekannt".
Definition date_text (o : Single.Parsed) : string :=
  Js.or_else (toLocaleString <$> Single.p_date o) (toLocaleString (Valid now)).
Definition subject_text (o : Single.Parsed) : string :=
  Js.or_else (Single.p_subject o) "Kein Betreff".

Definition banner : string := "---------- Weitergeleitete Nachricht ----------".
Definition nl : string := String newline "".
Definition dq : string := String Single.dquote "".

Definition fwd_subject (o : Single.Parsed) : string :=
  match Single.p_subject o with
  | Some sub => if Text.startsWith sub "Fwd:" then sub
                else "Fwd: " +:+ subject_text o
  | None => "Fwd: " +:+ subject_text o
  end.

Definition forwardedText (add : option string) (o : Single.Parsed) : string :=
  (if Js.truthy add then Js.or_else add "" +:+ nl +:+ nl +:+ banner +:+ nl +:+ nl
   else banner +:+ nl +:+ nl)
  +:+ "Von: " +:+ from_text o +:+ nl
  +:+ "Datum: " +:+ date_text o +:+ nl
  +:+ "Betreff: " +:+ subject_text o +:+ nl
  +:+ "An: " +:+ to_text o +:+ nl +:+ nl
  +:+ Js.or_else (Single.text o) "".

Definition forwardedHtml (add : option string) (o : Single.Parsed) : string :=
  match Single.html o with
  | Some (String c r) =>
      (if Js.truthy add
       then "<p>" +:+ Text.replace_char newline "<br>" (Js.or_else add "")
            +:+ "</p><hr><div style=" +:+ dq +:+ "margin-top:10px;" +:+ dq
            +:+ "><p><b>" +:+ banner +:+ "</b></p>"
       else "<hr><div><p><b>" +:+ banner +:+ "</b></p>")
      +:+ "<p><b>Von:</b> " +:+ from_text o +:+ "</p>"
      +:+ "<p><b>Datum:</b> " +:+ date_text o +:+ "</p>"
      +:+ "<p><b>Betreff:</b> " +:+ subject_text o +:+ "</p>"
      +:+ "<p><b>An:</b> " +:+ to_text o +:+ "</p></div>"
      +:+ "<div style=" +:+ dq +:+ "margin-top:10px;" +:+ dq +:+ ">"
      +:+ String c r +:+ "</div>"
  | _ => ""
  end.

Definition transport (imap : Imap) : Transport :=
  {| smtp_host := replace_first "imap." "smtp." (host imap);
     smtp_port := 587; smtp_secure := false;
     auth_user := user imap; auth_pass := password imap |}.

Definition mailOptions (imap : Imap) (b : Body) (o : Single.Parsed) : MailOptions :=
  {| m_from := user imap;
     m_to := joined <$> to b;
     m_cc := joined_if_set (cc b);
     m_bcc := joined_if_set (bcc b);
     m_subject := fwd_subject o;
     m_text := forwardedText (additionalText b) o;
     m_html := forwardedHtml (additionalText b) o;
     m_attachments := default [] (Single.attachments o) |}.

(** [transporter.sendMail]: the provider's message id, or an error. *)
Variable sendMail : Transport → MailOptions → string + string.

(** The handler behind the session check: the response, if the promise
    settles under the events [evs]. *)
Definition forward (imap : Imap) (b : Body) (evs : list Event) : option Response :=
  match await evs with
  | None => None
  | Some (Rejected m) => Some (fail 500 m)
  | Some (Resolved o) =>
      Some match sendMail (transport imap) (mailOptions imap b o) with
           | inl mid => ok (MessageId mid)
           | inr m => fail 500 m
           end
  end.
End Compose.

End Forward.

(** ** Session registry: [POST /api/connect] and [POST /api/logout] *)

Module Registry.

Import Session.

Inductive ConnectReply :=
| ConnectOk (sessionId : string)
| ConnectError (status : Z) (error : string).

(** The body of [POST /api/connect] behind [createImapConnection]: the
    connection attempt resolves to a handle or rejects with a message;
    [fresh] is the id drawn from [Math.random]. *)
Definition connect (activeConnections : gmap string Imap)
    (attempt : Imap + string) (fresh : string)
  : gmap string Imap * ConnectReply :=
  match attempt with
  | inl imap => (<[fresh := imap]> activeConnections, ConnectOk fresh)
  | inr message => (activeConnections, ConnectError 500 message)
  end.

(** [POST /api/logout]: the registry afterwards, the handles on which
    [imap.end()] was called, and the body sent (always [{success:true}]). *)
Record LoggedOut := {
  remaining : gmap string Imap;
  ended : list Imap;
  logout_success : bool
}.

Definition logout (activeConnections : gmap string Imap) (sid : option string)
  : LoggedOut :=
  match sid with
  | Some (String c r) =>
      match activeConnections !! String c r with
      | Some imap =>
          {| remaining := delete (String c r) activeConnections;
             ended := [imap]; logout_success := true |}
      | None =>
          {| remaining := activeConnections; ended := []; logout_success := true |}
      end
  | _ => {| remaining := activeConnections; ended := []; logout_success := true |}
  end.

End Registry.

(** ** Outbound dispatcher: [POST /api/send-email] *)

Module Send.

Import Session.

(** [email.smtpConfig] *)
Record SmtpConfig := {
  c_host : option string;
  c_port : option Z;
  c_secure : option bool
}.

(** [req.body.email] *)
Record Email := {
  to : option Forward.Recipients;
  cc : option Forward.Recipients;
  bcc : option Forward.Recipients;
  subject : option string;
  text : option string;
  html : option string;
  smtpConfig : option SmtpConfig
}.

Record MailOptions := {
  m_from : string;
  m_to : option string;
  m_cc : option string;
  m_bcc : option string;
  m_subject : option string;
  m_text : option string;
  m_html : option string
}.

(** [smtpConfig?.host || host.replace('imap.', 'smtp.')] *)
Definition smtpHost (imap : Imap) (e : Email) : string :=
  Js.or_else (smtpConfig e ≫= c_host)
    (Forward.replace_first "imap." "smtp." (host imap)).

(** [smtpConfig?.port || 587] *)
Definition smtpPort (e : Email) : Z :=
  match smtpConfig e ≫= c_port with
  | Some p => if p =? 0 then 587 else p
  | None => 587
  end.

(** [smtpConfig?.secure || false] *)
Definition smtpSecure (e : Email) : bool :=
  default false (smtpConfig e ≫= c_secure).

Definition transport (imap : Imap) (e : Email) : Forward.Transport :=
  {| Forward.smtp_host := smtpHost imap e;
     Forward.smtp_port := smtpPort e;
     Forward.smtp_secure := smtpSecure e;
     Forward.auth_user := user imap;
     Forward.auth_pass := password imap |}.

Definition mailOptions (imap : Imap) (e : Email) : MailOptions :=
  {| m_from := user imap;
     m_to := Forward.joined <$> to e;
     m_cc := Forward.joined_if_set (cc e);
     m_bcc := Forward.joined_if_set (bcc e);
     m_subject := subject e;
     m_text := text e;
     m_html := html e |}.

(** The handler behind the session check, for a body that carries an
    [email] object. *)
Definition send (sendMail : Forward.Transport → MailOptions → string + string)
    (imap : Imap) (e : Email) : Response :=
  match sendMail (transport imap e) (mailOptions imap e) with
  | inl mid => ok (MessageId mid)
  | inr m => fail 500 m
  end.

End Send.

(** ** Listing pipeline: the lenient header parse of the [body] stream *)

Module HeaderParse.

(** [\s] on the code units modelled: tab, line feed, vertical tab, form
    feed, carriage return, space and the no-break space. *)
Definition is_space (c : ascii) : bool :=
  let n := Text.code c in
  ((9 <=? n) && (n <=? 13) || (n =? 32) || (n =? 160))%N.

(** The units [.] does not match. *)
Definition is_line_terminator (c : ascii) : bool :=
  let n := Text.code c in ((n =? 10) || (n =? 13))%N.

Fixpoint drop_space (s : string) : string :=
  match s with
  | "" => ""
  | String c r => if is_space c then drop_space r else s
  end.

Fixpoint trim_end (s : string) : string :=
  match s with
  | "" => ""
  | String c r =>
      match trim_end r with
      | "" => if is_space c then "" else String c ""
      | t => String c t
      end
  end.

(** [String.prototype.trim] *)
Definition trim (s : string) : string := trim_end (drop_space s).

(** The second group and the closing bracket: the longest run of units
    other than line terminators that is followed by [>]. *)
Fixpoint upto_last_gt (s : string) : option string :=
  match s with
  | "" => None
  | String c r =>
      if is_line_terminator c then None
      else match upto_last_gt r with
           | Some g => Some (String c g)
           | None => if Text.char_eqb c ">" then Some "" else None
           end
  end.

(** The expression behind its first group: white space, [<], the second
    group, [>]. *)
Definition bracketed (s : string) : option string :=
  match drop_space s with
  | String c r => if Text.char_eqb c "<" then upto_last_gt r else None
  | "" => None
  end.

(** The whole expression at the head of [s]: the first group is lazy, so
    the shortest first group for which the rest matches is taken. *)
Fixpoint at_head (s : string) : option (string * string) :=
  match bracketed s with
  | Some g2 => Some ("", g2)
  | None =>
      match s with
      | "" => None
      | String c r =>
          if is_line_terminator c then None
          else match at_head r with
               | Some (g1, g2) => Some (String c g1, g2)
               | None => None
               end
      end
  end.

(** [raw.match(re)] for the address expression: the leftmost match. *)
Fixpoint address_match (s : string) : option (string * string) :=
  match at_head s with
  | Some g => Some g
  | None => match s with "" => None | String _ r => address_match r end
  end.

(** [.replace(/[q']/g, '')] with [q] the double quote. *)
Fixpoint remove_quotes (s : string) : string :=
  match s with
  | "" => ""
  | String c r =>
      if Text.char_eqb c Single.dquote || Text.char_eqb c Single.squote
      then remove_quotes r
      else String c (remove_quotes r)
  end.

(** One [From] or [To] value. *)
Definition parse_address (raw : string) : Address :=
  match address_match raw with
  | Some (g1, g2) => {| name := remove_quotes (trim g1); address := g2 |}
  | None => {| name := ""; address := raw |}
  end.

(** [Imap.parseHeader(buffer)]: the values of the four fields asked for. *)
Record Raw := {
  r_subject : option (list string);
  r_from : option (list string);
  r_to : option (list string);
  r_date : option (list string)
}.

(** [header.f && header.f[0]] *)
Definition first_value (f : option (list string)) : option string :=
  match f with
  | Some (String c r :: _) => Some (String c r)
  | _ => None
  end.

Section Dates.
(** [new Date(string)] *)
Variable parseDate : string → JsDate.

(** The [end] listener of the body stream, up to the assignments. *)
Definition parse (raw : Raw) : Listing.Header :=
  {| Listing.h_subject := first_value (r_subject raw);
     Listing.h_from := parse_address <$> first_value (r_from raw);
     Listing.h_to := match first_value (r_to raw) with
                     | Some _ => Some (parse_address <$> default [] (r_to raw))
                     | None => None
                     end;
     Listing.h_date := parseDate <$> first_value (r_date raw) |}.
End Dates.

End HeaderParse.

(** ** Predicates used to state the properties *)

Module Facts.

(** The unit [c] occurs in [s]. *)
Fixpoint has_char (c : ascii) (s : string) : bool :=
  match s with
  | "" => false
  | String d r => Text.char_eqb c d || has_char c r
  end.

(** [s] consists of white space only. *)
Fixpoint all_space (s : string) : bool :=
  match s with
  | "" => true
  | String c r => HeaderParse.is_space c && all_space r
  end.

(** [s] holds no line terminator. *)
Fixpoint one_line (s : string) : bool :=
  match s with
  | "" => true
  | String c r => negb (HeaderParse.is_line_terminator c) && one_line r
  end.

(** [a] is listed before [b] rightly: both dates are valid and [a] is not
    older than [b]. *)
Definition newer_first (a b : Summary) : Prop :=
  match date a, date b with
  | Valid x, Valid y => y ≤ x
  | _, _ => False
  end.

Definition is_timeout (e : Single.Event) : bool :=
  match e with Single.Timeout => true | _ => false end.

Definition is_seq_end (e : Single.Event) : bool :=
  match e with Single.SeqEnd _ => true | _ => false end.

Definition is_parsed (e : Single.Event) : bool :=
  match e with Single.Parsed_ _ _ => true | _ => false end.

(** The label [imap.] at the head of [s]. *)
Definition imap_label (s : string) : option nat :=
  match Text.literal false "imap." s with
  | Some _ => Some 5%nat
  | None => None
  end.

(** The original with its subject replaced. *)
Definition with_subject (o : Single.Parsed) (sub : string) : Single.Parsed :=
  {| Single.p_subject := Some sub; Single.p_from := Single.p_from o;
     Single.p_to := Single.p_to o; Single.p_date := Single.p_date o;
     Single.text := Single.text o; Single.html := Single.html o;
     Single.textAsHtml := Single.textAsHtml o;
     Single.attachments := Single.attachments o |}.

(** The number of mailboxes in a tree. *)
Fixpoint count_box (b : FolderLister.Box) : nat :=
  match b with
  | FolderLister.MkBox _ (Some ch) =>
      S ((fix each (l : list (string * FolderLister.Box)) : nat :=
            match l with
            | [] => O
            | (_, c) :: r => (count_box c + each r)%nat
            end) ch)
  | FolderLister.MkBox _ None => 1%nat
  end.

Fixpoint count_boxes (boxObj : list (string * FolderLister.Box)) : nat :=
  match boxObj with
  | [] => O
  | (_, c) :: r => (count_box c + count_boxes r)%nat
  end.

(** [k] holds no capital ASCII letter. *)
Fixpoint no_capital (k : string) : bool :=
  match k with
  | "" => true
  | String c r =>
      negb ((65 <=? N_of_ascii c) && (N_of_ascii c <=? 90))%N && no_capital r
  end.

(** [t] spells the keyword [k] up to the case of ASCII letters: unit by
    unit, [t] has the unit of [k] or the capital letter 32 code points
    below it. *)
Fixpoint spells (k t : string) : Prop :=
  match k, t with
  | "", "" => True
  | String kc k', String c t' =>
      (c = kc ∨ ((65 ≤ N_of_ascii c ≤ 90)%N
                 ∧ N_of_ascii kc = (N_of_ascii c + 32)%N))
      ∧ spells k' t'
  | _, _ => False
  end.

(** The claim's test on one node of a structure tree: the disposition type
    is attachment or inline up to letter case, or [params.name] is a
    non-empty string. *)
Definition attachment_node (s : Listing.Struct) : Prop :=
  match s with
  | Listing.Part d p _ =>
      (∃ disp, d = Some disp ∧
         (spells "attachment" (Listing.type disp)
          ∨ spells "inline" (Listing.type disp)))
      ∨ (∃ pr n, p = Some pr ∧ Listing.pname pr = Some n ∧ n ≠ "")
  | Listing.Arr _ => False
  end.

(** The text with every ampersand and angle bracket written as its
    entity, unit by unit. *)
Fixpoint entities (t : string) : string :=
  match t with
  | "" => ""
  | String c r =>
      (if decide (c = "&"%char) then "&amp;"
       else if decide (c = "<"%char) then "&lt;"
       else if decide (c = ">"%char) then "&gt;"
       else String c "") +:+ entities r
  end.

End Facts.

(** ** The response object *)

Module Express.

(** [res] as the handlers use it: the status code set so far, whether a
    response has gone out, the response the client received, and the
    responses asked for by calls that were refused. *)
Record Res := {
  statusCode : Z;
  headersSent : bool;
  received : option Response;
  refused : list Response
}.

Definition fresh : Res :=
  {| statusCode := 200; headersSent := false; received := None; refused := [] |}.

(** [res.status(code)] *)
Definition set_status (code : Z) (res : Res) : Res :=
  {| statusCode := code; headersSent := headersSent res;
     received := received res; refused := refused res |}.

(** [res.json(body)]: the body goes out under the status code set so far;
    once a response has gone out the call throws (headers already sent)
    and nothing is sent. *)
Definition json (success_ : bool) (p : Payload) (res : Res) : Res :=
  let r := {| status := statusCode res; success := success_; payload := p |} in
  if headersSent res
  then {| statusCode := statusCode res; headersSent := true;
          received := received res; refused := refused res ++ [r] |}
  else {| statusCode := statusCode res; headersSent := true;
          received := Some r; refused := refused res |}.

(** One write call of a handler: a success body is written with
    [res.json(...)], a failure with [res.status(c).json(...)]. *)
Definition call (r : Response) (res : Res) : Res :=
  if success r then json true (payload r) res
  else json false (payload r) (set_status (status r) res).

(** The response object after the write calls of one request, in order. *)
Definition wire (calls : list Response) : Res :=
  foldl (λ res r, call r res) fresh calls.

End Express.

(** ** Properties *)

Lemma rejects_unregistered reg sid :
  Session.unregistered reg sid → Session.rejects reg sid = true.
Proof.
  unfold Session.unregistered, Session.rejects.
  destruct sid as [s|]; [|done].
  intros [->| ->]; [done|].
  rewrite bool_decide_eq_false_2; [by rewrite orb_true_r|].
  by intros [? ?].
Qed.

(** The check is not vacuous: a registered, non-empty id passes it and the
    handler goes on to its first use of the connection. *)
Lemma registered_session_proceeds reg s imap c r' fld :
  reg !! String c r' = Some imap → s = String c r' →
  Session.enter Session.folders reg
    {| Session.sessionId := Some s; Session.folder := fld |}
  = {| Session.touched := [(imap, Session.GetBoxes)]; Session.replied := None |}.
Proof.
  intros Hreg ->. simpl. unfold Session.enter_folders, Session.rejects, Session.get.
  cbn [Session.sessionId Js.truthy negb orb mbind option_bind].
  rewrite Hreg. by rewrite bool_decide_eq_true_2.
Qed.

(** C9: on each of the five session-bearing routes, a request whose
    [sessionId] is absent or not registered is answered with status 401,
    [success:false] and the invalid-session error, and the handler has not
    touched any connection. *)
Theorem invalid_session_rejected_everywhere
    (e : Session.Endpoint) (reg : gmap string Session.Imap) (r : Session.Request)
    (Hbad : Session.unregistered reg (Session.sessionId r)) :
  Session.enter e reg r =
    {| Session.touched := [];
       Session.replied := Some (fail 401 "Ungültige Session") |}.
Proof.
  apply rejects_unregistered in Hbad.
  destruct e; simpl;
    unfold Session.enter_folders, Session.enter_emails, Session.enter_email_by_id,
      Session.enter_send_email, Session.enter_forward_email;
    by rewrite Hbad.
Qed.

Lemma invalid_session_rejected_everywhere_witness :
  Session.enter Session.forward_email
    (<["k3x9":={| Session.user := "a@web.de"; Session.password := "pw";
                  Session.host := "imap.web.de" |}]> ∅)
    {| Session.sessionId := Some "zzzz"; Session.folder := Some "INBOX" |} =
    {| Session.touched := [];
       Session.replied := Some (fail 401 "Ungültige Session") |}.
Proof.
  apply (invalid_session_rejected_everywhere Session.forward_email).
  simpl. right. reflexivity.
Defined.

(** C4: for [total >= 1] the fetch is issued over [start:total] with
    [start = total - min(30,total) + 1], which are the [min(30,total)] highest
    sequence numbers; an empty box is answered at once with an empty list and
    no fetch; 45 messages give the range 16:45. *)
Theorem listing_range (total : Z) (Htotal : 1 ≤ total) :
  Listing.on_open total =
    Listing.SeqFetch
      (Js.num (total - Z.min 30 total + 1) +:+ ":" +:+ Js.num total)
  ∧ 1 ≤ total - Z.min 30 total + 1
  ∧ total - (total - Z.min 30 total + 1) + 1 = Z.min 30 total
  ∧ Listing.on_open 0 = Listing.Reply (ok (Emails [] false))
  ∧ Listing.on_open 45 = Listing.SeqFetch "16:45".
Proof.
  split_and!; [|lia|lia|reflexivity|reflexivity].
  unfold Listing.on_open, Listing.range, Listing.start, Listing.lastCount.
  destruct (Z.eqb_spec total 0) as [->|_]; [lia|].
  by rewrite Z.max_r by lia.
Qed.

Lemma listing_range_witness :
  Listing.on_open 45 =
    Listing.SeqFetch (Js.num (45 - Z.min 30 45 + 1) +:+ ":" +:+ Js.num 45)
  ∧ 1 ≤ 45 - Z.min 30 45 + 1
  ∧ 45 - (45 - Z.min 30 45 + 1) + 1 = Z.min 30 45
  ∧ Listing.on_open 0 = Listing.Reply (ok (Emails [] false))
  ∧ Listing.on_open 45 = Listing.SeqFetch "16:45".
Proof. apply (listing_range 45). lia. Defined.

(** *** Attachment detection *)

Section StructInduction.
Import Listing.
Variable P : Struct → Prop.
Hypothesis HArr : ∀ items, Forall P items → P (Arr items).
Hypothesis HPart : ∀ d p ps,
  match ps with Some l => Forall P l | None => True end → P (Part d p ps).

Lemma Struct_nested_ind : ∀ s, P s.
Proof.
  fix IH 1. intros [items | d p ps].
  - apply HArr. induction items as [|i items IHitems]; constructor.
    + apply IH.
    + exact IHitems.
  - apply HPart. destruct ps as [l|]; [|exact I].
    induction l as [|i l IHl]; constructor.
    + apply IH.
    + exact IHl.
Qed.
End StructInduction.

Lemma disposition_hit_spec d :
  Listing.disposition_hit d = true ↔
  ∃ disp, d = Some disp ∧
    (Text.toLowerCase (Listing.type disp) = "attachment"
     ∨ Text.toLowerCase (Listing.type disp) = "inline").
Proof.
  destruct d as [disp|]; simpl.
  - rewrite orb_true_iff, !bool_decide_eq_true. naive_solver.
  - naive_solver.
Qed.

Lemma name_hit_spec p :
  Listing.name_hit p = true ↔
  ∃ pr n, p = Some pr ∧ Listing.pname pr = Some n ∧ n ≠ "".
Proof.
  destruct p as [[[[|c r]|]]|]; simpl; split;
    try discriminate; try (intros (pr & n & ? & ? & ?); simplify_eq/=; done).
  intros _. by eexists _, _.
Qed.

(** The walk only ever appends; what it appends is non-empty exactly when
    some part object below counts as an attachment. *)
Lemma findAttachmentParts_appends s :
  ∀ acc, ∃ l,
    Listing.findAttachmentParts s acc = acc ++ l
    ∧ (l ≠ [] ↔ Exists Listing.counts_as_attachment (Listing.nodes s)).
Proof.
  induction s as [items IH | d p ps IH] using Struct_nested_ind; intros acc.
  - simpl. revert acc. induction IH as [|i items Hi _ IHitems]; intros acc.
    + exists []. simpl. rewrite app_nil_r, Exists_nil. naive_solver.
    + simpl. destruct (Hi acc) as (l1 & -> & H1).
      destruct (IHitems (acc ++ l1)) as (l2 & -> & H2).
      exists (l1 ++ l2). rewrite app_assoc. split; [done|].
      rewrite Exists_app, <- H1, <- H2.
      destruct l1, l2; naive_solver.
  - cbn [Listing.findAttachmentParts Listing.nodes].
    set (self := Listing.Part d p ps).
    set (a1 := if Listing.disposition_hit d then acc ++ [self] else acc).
    set (a2 := if Listing.name_hit p then a1 ++ [self] else a1).
    assert (∃ l0, a2 = acc ++ l0
              ∧ (l0 ≠ [] ↔ Listing.counts_as_attachment self)) as (l0 & Ha2 & H0).
    { assert (Hc : Listing.counts_as_attachment self ↔
                Listing.disposition_hit d = true ∨ Listing.name_hit p = true).
      { unfold self. simpl. by rewrite disposition_hit_spec, name_hit_spec. }
      subst a2 a1.
      destruct (Listing.disposition_hit d), (Listing.name_hit p).
      - exists [self; self]. rewrite <- app_assoc, Hc. naive_solver.
      - exists [self]. rewrite Hc. naive_solver.
      - exists [self]. rewrite Hc. naive_solver.
      - exists []. rewrite app_nil_r, Hc. naive_solver. }
    rewrite Ha2. clearbody self. clear a1 a2 Ha2.
    destruct ps as [l|].
    + assert (∀ l0, ∃ l1,
        fold_left (λ a part, Listing.findAttachmentParts part a) l (acc ++ l0)
          = acc ++ l0 ++ l1
        ∧ (l1 ≠ [] ↔ Exists Listing.counts_as_attachment
                       (flat_map Listing.nodes l))) as Hfold.
      { clear l0 H0. induction IH as [|i l Hi _ IHl]; intros l0.
        - exists []. simpl. rewrite app_nil_r, Exists_nil. naive_solver.
        - simpl. destruct (Hi (acc ++ l0)) as (l1 & -> & H1).
          rewrite <- app_assoc.
          destruct (IHl (l0 ++ l1)) as (l2 & -> & H2).
          exists (l1 ++ l2). rewrite <- app_assoc. split; [done|].
          rewrite Exists_app, <- H1, <- H2.
          destruct l1, l2; naive_solver. }
      destruct (Hfold l0) as (l1 & -> & H1).
      exists (l0 ++ l1). split; [done|].
      rewrite Exists_cons, <- H0, <- H1.
      destruct l0, l1; naive_solver.
    + exists l0. split; [done|].
      rewrite Exists_cons, Exists_nil, <- H0. naive_solver.
Qed.

Lemma is_upper_range c :
  Text.is_upper c = true ↔ (65 ≤ N_of_ascii c ≤ 90)%N.
Proof.
  unfold Text.is_upper, Text.code.
  rewrite andb_true_iff, !N.leb_le. tauto.
Qed.

(** Lower-casing one unit gives the lower-case unit [kc] exactly when the
    unit is [kc] or the capital letter of [kc]. *)
Lemma lower_char_spells c kc :
  Text.is_upper kc = false →
  Text.lower_char c = kc ↔
  c = kc ∨ ((65 ≤ N_of_ascii c ≤ 90)%N ∧ N_of_ascii kc = (N_of_ascii c + 32)%N).
Proof.
  intros Hk. unfold Text.lower_char.
  destruct (Text.is_upper c) eqn:Hc.
  - apply is_upper_range in Hc. unfold Text.code. split.
    + intros <-. right. split; [done|].
      apply N_ascii_embedding. lia.
    + intros [-> | [_ Heq]].
      * apply is_upper_range in Hc. congruence.
      * by rewrite <- Heq, ascii_N_embedding.
  - split; [by left|]. intros [-> | [Hr _]]; [done|].
    apply is_upper_range in Hr. congruence.
Qed.

Lemma toLowerCase_spells k :
  Facts.no_capital k = true →
  ∀ t, Text.toLowerCase t = k ↔ Facts.spells k t.
Proof.
  induction k as [|kc k IH]; intros Hk t.
  - destruct t; simpl; [done|]. split; [discriminate|done].
  - simpl in Hk. apply andb_prop in Hk as [Hkc Hk].
    assert (Hup : Text.is_upper kc = false).
    { apply negb_true_iff in Hkc. exact Hkc. }
    destruct t as [|c t]; simpl; [split; [discriminate|done]|].
    rewrite <- (IH Hk t), <- (lower_char_spells c kc Hup).
    split; [by intros [= -> ->]|by intros [-> ->]].
Qed.

Lemma counts_as_attachment_node n :
  Listing.counts_as_attachment n ↔ Facts.attachment_node n.
Proof.
  destruct n as [items|d p ps]; simpl; [done|].
  split; (intros [(disp & Hd & Ht)|Hn]; [left; exists disp; split; [done|]|by right]).
  - destruct Ht as [Ht|Ht]; [left|right].
    + by apply (proj1 (toLowerCase_spells "attachment" eq_refl _)).
    + by apply (proj1 (toLowerCase_spells "inline" eq_refl _)).
  - destruct Ht as [Ht|Ht]; [left|right].
    + by apply (proj2 (toLowerCase_spells "attachment" eq_refl _)).
    + by apply (proj2 (toLowerCase_spells "inline" eq_refl _)).
Qed.

(** C8: [hasAttachments] computed for a structure tree is [true] if and
    only if some part object of the tree, at any depth, has a disposition
    type that spells attachment or inline in any mix of capital and small
    letters, or has a non-empty [params.name]; otherwise it is [false].
    A disposition type in capitals, two levels down, is found. *)
Theorem hasAttachments_iff_some_node (s : Listing.Struct) :
  (Listing.detect (Some s) false = true ↔
     ∃ n, n ∈ Listing.nodes s ∧ Facts.attachment_node n)
  ∧ (Listing.detect (Some s) false = false ↔
     ∀ n, n ∈ Listing.nodes s → ¬ Facts.attachment_node n)
  ∧ Listing.detect
      (Some (Listing.Arr
         [Listing.Part None None None;
          Listing.Arr [Listing.Part (Some {| Listing.type := "ATTACHMENT" |})
                         None None];
          Listing.Part (Some {| Listing.type := "Inline" |}) None None]))
      false = true.
Proof.
  assert (Hiff : Listing.detect (Some s) false = true ↔
     ∃ n, n ∈ Listing.nodes s ∧ Facts.attachment_node n).
  { unfold Listing.detect. rewrite bool_decide_eq_true.
    destruct (findAttachmentParts_appends s []) as (l & -> & Hl).
    setoid_rewrite <- counts_as_attachment_node.
    rewrite <- Exists_exists, <- Hl. simpl. destruct l; simpl; [|split; [done|lia]].
    split; [lia|done]. }
  split_and!; [exact Hiff| |reflexivity].
  rewrite <- not_true_iff_false, Hiff. naive_solver.
Qed.

(** *** Listing pipeline: one response, and the watchdog *)

Lemma listing_inv_step s e : listing_inv s → listing_inv (Listing.step s e).
Proof.
  unfold listing_inv. destruct s as [r c t el en out], e; simpl;
    unfold Listing.on_timeout, Listing.on_error, Listing.on_end; simpl;
    destruct r, t, el, en; simpl; intros; destruct_and?; subst; simpl; auto;
    try discriminate.
Qed.

Lemma listing_inv_run evs s : listing_inv s → listing_inv (Listing.run s evs).
Proof.
  revert s. induction evs as [|e evs IH]; intros s Hs; [done|].
  apply IH, listing_inv_step, Hs.
Qed.

Lemma listing_inv_init : listing_inv Listing.init.
Proof. done. Qed.

(** X1: Whatever the callbacks and their order, the listing handler writes at
    most one response. *)
Lemma listing_at_most_one_response evs :
  (length (Listing.sent (Listing.run Listing.init evs)) ≤ 1)%nat.
Proof.
  pose proof (listing_inv_run evs _ listing_inv_init) as H.
  unfold listing_inv in H.
  destruct (Listing.hasResponded _); [lia|]. destruct H as [-> _]. simpl. lia.
Qed.

Lemma listing_run_app s evs evs' :
  Listing.run s (evs ++ evs') = Listing.run (Listing.run s evs) evs'.
Proof. apply foldl_app. Qed.

Lemma listing_responded_stays s e :
  Listing.hasResponded s = true → Listing.hasResponded (Listing.step s e) = true.
Proof.
  destruct s as [r c t el en out], e; simpl;
    unfold Listing.on_timeout, Listing.on_error, Listing.on_end; simpl;
    intros ->; destruct t, el, en; done.
Qed.

(** While no response has been written, the array [emails] holds the
    summaries of the messages ended so far, in arrival order. *)
Lemma listing_collected_pending evs :
  Listing.hasResponded (Listing.run Listing.init evs) = false →
  Listing.collected (Listing.run Listing.init evs)
    = Listing.summarize <$> Listing.ended evs.
Proof.
  induction evs as [|e evs IH] using rev_ind; [done|].
  rewrite listing_run_app. simpl. intros Hpend.
  assert (Hprev : Listing.hasResponded (Listing.run Listing.init evs) = false).
  { destruct (Listing.hasResponded (Listing.run Listing.init evs)) eqn:E; [|done].
    by rewrite (listing_responded_stays _ e E) in Hpend. }
  specialize (IH Hprev).
  pose proof (listing_inv_run evs _ listing_inv_init) as Hinv.
  unfold listing_inv in Hinv. rewrite Hprev in Hinv.
  destruct Hinv as (_ & Ht & Hen).
  unfold Listing.ended in *. rewrite omap_app, fmap_app, <- IH.
  destruct (Listing.run Listing.init evs) as [r c t el en out]; simpl in *; subst.
  destruct e; simpl in *; unfold Listing.on_timeout, Listing.on_error, Listing.on_end in *;
    simpl in *; try discriminate.
  - reflexivity.
  - destruct el; simpl in *; [discriminate|]. by rewrite app_nil_r.
Qed.

(** C5: when the watchdog fires while no response has been written, the
    response is [{success:true, emails, partial:true}] with the summaries
    accumulated so far if there is at least one, and the timeout error with
    [success:false] if there is none. *)
Theorem watchdog_partial_or_timeout (evs : list Listing.Event)
    (Hpending : Listing.hasResponded (Listing.run Listing.init evs) = false) :
  let acc := Listing.summarize <$> Listing.ended evs in
  Listing.sent (Listing.run Listing.init (evs ++ [Listing.Timeout])) =
    [ match acc with
      | _ :: _ => {| status := 200; success := true; payload := Emails acc true |}
      | [] => {| status := 500; success := false;
                 payload := Error "Zeitüberschreitung beim Abrufen der E-Mails" |}
      end ].
Proof.
  intros acc. rewrite listing_run_app. simpl.
  pose proof (listing_collected_pending evs Hpending) as Hc. fold acc in Hc.
  pose proof (listing_inv_run evs _ listing_inv_init) as Hinv.
  unfold listing_inv in Hinv. rewrite Hpending in Hinv.
  destruct Hinv as (Hs & Ht & _).
  unfold Listing.on_timeout. rewrite Ht, Hpending, Hs, Hc. simpl.
  destruct acc; reflexivity.
Qed.

(** X2: Once the watchdog has fired or the fetch has ended, the listing handler
    has written exactly one response. *)
Lemma listing_exactly_one_response evs :
  Listing.Timeout ∈ evs ∨ Listing.FetchEnd ∈ evs →
  length (Listing.sent (Listing.run Listing.init evs)) = 1%nat.
Proof.
  intros Hin.
  assert (Hr : Listing.hasResponded (Listing.run Listing.init evs) = true).
  { assert (∃ e pre post, evs = pre ++ e :: post
              ∧ (e = Listing.Timeout ∨ e = Listing.FetchEnd)) as (e & pre & post & -> & He).
    { destruct Hin as [H|H]; apply list_elem_of_split in H as (pre & post & ->);
        eexists _, pre, post; eauto. }
    rewrite listing_run_app. simpl.
    assert (Hnow : Listing.hasResponded
                     (Listing.step (Listing.run Listing.init pre) e) = true).
    { pose proof (listing_inv_run pre _ listing_inv_init) as Hinv.
      unfold listing_inv in Hinv.
      destruct (Listing.run Listing.init pre) as [r c t el en out]; simpl in *.
      destruct He as [-> | ->]; simpl;
        unfold Listing.on_timeout, Listing.on_end; simpl;
        destruct r; simpl; destruct_and?; subst; simpl; try done;
        destruct t, en; done. }
    clear Hin. revert Hnow.
    generalize (Listing.step (Listing.run Listing.init pre) e).
    induction post as [|x post IH]; intros s Hs; [done|].
    simpl. apply IH. by apply listing_responded_stays. }
  pose proof (listing_inv_run evs _ listing_inv_init) as Hinv.
  unfold listing_inv in Hinv. by rewrite Hr in Hinv.
Qed.

Lemma watchdog_partial_or_timeout_witness :
  let evs := (λ n, Listing.MessageEnd
                     {| Listing.seqno := n; Listing.now := 1700000000000;
                        Listing.attrs := None; Listing.header := None |})
             <$> seqZ 1 12 in
  Listing.sent (Listing.run Listing.init (evs ++ [Listing.Timeout])) =
    [ {| status := 200; success := true;
         payload := Emails (Listing.summarize <$> Listing.ended evs) true |} ]
  ∧ length (Listing.summarize <$> Listing.ended evs) = 12%nat.
Proof.
  intros evs. split; [|reflexivity].
  apply (watchdog_partial_or_timeout evs). reflexivity.
Defined.

(** *** Single-message pipeline *)

Lemma single_run_app id s evs evs' :
  Single.run id s (evs ++ evs') = Single.run id (Single.run id s evs) evs'.
Proof. apply foldl_app. Qed.

(** C1: the watchdog of the single-message handler writes its 504 without
    reading or setting [hasResponded].  When the parse completes afterwards,
    the flag is still unset, so the success path runs: the message is
    marked as read and [res.json] is called a second time.  The response
    object refuses that call, so the client has received the 504 only. *)
Theorem single_watchdog_not_guarded_by_flag
    (id : string) (now : Z) (parsed : Single.Parsed) :
  let timed_out := Single.run id Single.init [Single.Timeout] in
  let later :=
    Single.run id Single.init [Single.Timeout; Single.Parsed_ now parsed] in
  let timeout_504 :=
    {| status := 504; success := false;
       payload := Error
         "Zeitüberschreitung beim Laden der E-Mail. Die E-Mail könnte zu groß sein." |} in
  Express.received (Express.wire (Single.sent timed_out)) = Some timeout_504
  ∧ Single.hasResponded timed_out = false
  ∧ Single.hasResponded later = true
  ∧ Single.flagged later = [id]
  ∧ length (Single.sent later) = 2%nat
  ∧ Express.received (Express.wire (Single.sent later)) = Some timeout_504
  ∧ Express.refused (Express.wire (Single.sent later))
    = [ {| status := 504; success := true;
           payload := Email (Single.emailData id now parsed) false |} ].
Proof. repeat split; reflexivity. Qed.

(** C2: the sequence-number fetch created after a failed or empty UID
    fetch has no [message] listener; when it finds the message, the message
    is dropped and the request is answered 404. *)
Theorem seq_fallback_finds_message_yet_404
    (id : string) (message : string) (parsed : Single.Parsed) :
  Single.sent (Single.run id Single.init
     [Single.UidError message None; Single.SeqMessage Single.ViaError parsed;
      Single.SeqEnd Single.ViaError])
    = [ fail 404 "E-Mail nicht gefunden" ]
  ∧ Single.sent (Single.run id Single.init
     [Single.UidEnd None; Single.SeqMessage Single.ViaEnd parsed;
      Single.SeqEnd Single.ViaEnd])
    = [ fail 404 "E-Mail nicht gefunden" ].
Proof. split; reflexivity. Qed.

(** X10: Only a parse result of the UID fetch's message ever produces a
    [success:true] response: without one, every response written is a
    failure, whatever the fallback fetches deliver. *)
Lemma single_no_success_without_uid_message id evs :
  forallb (λ e, negb (Single.from_uid_message e)) evs = true →
  Forall (λ r, success r = false) (Single.sent (Single.run id Single.init evs)).
Proof.
  assert (Hgen : ∀ s, Forall (λ r, success r = false) (Single.sent s) →
            forallb (λ e, negb (Single.from_uid_message e)) evs = true →
            Forall (λ r, success r = false) (Single.sent (Single.run id s evs))).
  { induction evs as [|e evs IH]; intros s Hs Hev; [done|].
    simpl in Hev. apply andb_prop in Hev as [He Hev].
    simpl. apply IH; [|done]. clear IH Hev.
    assert (Hw : ∀ c m s', Forall (λ r, success r = false) (Single.sent s') →
              Forall (λ r, success r = false) (Single.sent (Single.respond (fail c m) s'))).
    { intros c m s' H'. simpl. apply Forall_app. split; [done|]. by constructor. }
    destruct e; simpl in *; try discriminate; try done;
      try (unfold Single.on_parsed_to_array;
           by destruct (Single.fetchCompleted s)).
    - unfold Single.on_timeout. destruct (Single.timer s); [|done].
      simpl. apply Forall_app. split; [done|]. by constructor.
    - unfold Single.on_stream_threw. destruct (Single.hasResponded s); [done|]. by apply Hw.
    - unfold Single.on_uid_error.
      destruct (Single.uid_error_listener s); simpl; [|done].
      destruct (Single.hasResponded s); simpl; [done|].
      destruct (Single.fetchCompleted s); simpl; [done|].
      destruct seq_throws; simpl; [|done].
      apply Forall_app. split; [done|]. by constructor.
    - unfold Single.on_uid_end.
      destruct (Single.uid_end_listener s); simpl; [|done].
      destruct (Single.hasResponded s); simpl; [done|].
      destruct (Single.fetchCompleted s); simpl; [done|].
      destruct (Single.fetchStarted s); simpl; [|done].
      destruct seq_throws; simpl; [|done].
      apply Forall_app. split; [done|]. by constructor.
    - unfold Single.on_seq_error.
      destruct f; [|done].
      destruct (Single.seq_via_error s) as [[[] en]|]; simpl; try done.
      destruct (Single.hasResponded s); simpl; [done|].
      apply Forall_app. split; [done|]. by constructor.
    - unfold Single.on_seq_end, Single.seq_end_body.
      destruct f.
      + destruct (Single.seq_via_error s) as [[er []]|]; simpl; try done.
        destruct (Single.hasResponded s); simpl; [done|].
        destruct (Single.fetchCompleted s); simpl; [done|].
        apply Forall_app. split; [done|]. by constructor.
      + destruct (Single.seq_via_end s) as [[]|]; simpl; try done.
        destruct (Single.hasResponded s); simpl; [done|].
        destruct (Single.fetchCompleted s); simpl; [done|].
        apply Forall_app. split; [done|]. by constructor. }
  apply Hgen. constructor.
Qed.

(** C7: the three replacements run once each, left to right; markup that
    only comes together when a match is cut out survives.  Here the body
    sent back still holds a script block and an inline event handler. *)
Theorem sanitizer_leaves_reassembled_markup (id : string) (now : Z) :
  let dirty :=
    "<scr<script></script>ipt>alert(1)</script><img oonerror='a'nerror='alert(1)'>" in
  let parsed :=
    {| Single.p_subject := None; Single.p_from := None; Single.p_to := None;
       Single.p_date := None; Single.text := None; Single.html := Some dirty;
       Single.textAsHtml := None; Single.attachments := None |} in
  let sent_body := body (Single.emailData id now parsed) in
  Text.occurs Single.script_block dirty = true
  ∧ Text.occurs (Single.handler_attr Single.squote) dirty = true
  ∧ Single.sent (Single.run id Single.init [Single.Parsed_ now parsed])
    = [ok (Email (Single.emailData id now parsed) false)]
  ∧ sent_body = "<script>alert(1)</script><img onerror='alert(1)'>"
  ∧ Text.occurs Single.script_block sent_body = true
  ∧ Text.occurs (Single.handler_attr Single.squote) sent_body = true.
Proof. repeat split; reflexivity. Qed.



(** *** Folder lister *)

Lemma string_app_assoc (a b c : string) : (a +:+ b) +:+ c = a +:+ b +:+ c.
Proof.
  induction a as [|x a IH]; [done|].
  change (String x ((a +:+ b) +:+ c) = String x (a +:+ b +:+ c)).
  by rewrite IH.
Qed.

Lemma join_snoc sep (l : list string) x :
  l ≠ [] → Js.join sep (l ++ [x]) = Js.join sep l +:+ sep +:+ x.
Proof.
  induction l as [|a l IH]; [done|]. intros _.
  destruct l as [|b l]; [done|].
  change (Js.join sep ((a :: b :: l) ++ [x]))
    with (a +:+ sep +:+ Js.join sep ((b :: l) ++ [x])).
  rewrite IH by done.
  change (Js.join sep (a :: b :: l)) with (a +:+ sep +:+ Js.join sep (b :: l)).
  by rewrite !string_app_assoc.
Qed.

Lemma path_above_snoc above k :
  FolderLister.path_above (above ++ [k]) = Js.join "/" (above ++ [k]) +:+ "/".
Proof. unfold FolderLister.path_above. by destruct above. Qed.

Lemma fullPath_chain above box :
  FolderLister.fullPath (FolderLister.path_above above) box
  = Js.join "/" (above ++ [box]).
Proof.
  destruct above as [|a above]; [done|].
  rewrite join_snoc by done.
  unfold FolderLister.path_above, FolderLister.fullPath.
  rewrite <- string_app_assoc.
  by destruct (Js.join "/" (a :: above)).
Qed.

Section BoxInduction.
Import FolderLister.
Variable P : Box → Prop.
Hypothesis HBox : ∀ d ch,
  match ch with Some l => Forall (λ kb, P kb.2) l | None => True end →
  P (MkBox d ch).

Lemma Box_nested_ind : ∀ b, P b.
Proof.
  fix IH 1. intros [d [l|]]; apply HBox; [|exact I].
  induction l as [|[k c] l IHl]; constructor.
  - apply IH.
  - exact IHl.
Qed.
End BoxInduction.

Lemma processBox_children k d ch path folders :
  FolderLister.processBox k (FolderLister.MkBox d (Some ch)) path folders
  = fold_left
      (λ acc kc, FolderLister.processBox kc.1 kc.2
                   (FolderLister.fullPath path k +:+ "/") acc)
      ch (folders ++ [FolderLister.entry k (FolderLister.fullPath path k)]).
Proof.
  simpl. generalize (folders ++ [FolderLister.entry k (FolderLister.fullPath path k)]).
  induction ch as [|[k' c] ch IH]; intros acc; simpl; [done|apply IH].
Qed.

Lemma chains_of_children k d ch above :
  FolderLister.chains_of k (FolderLister.MkBox d (Some ch)) above
  = (above ++ [k])
    :: flat_map (λ kc, FolderLister.chains_of kc.1 kc.2 (above ++ [k])) ch.
Proof.
  simpl. f_equal.
  induction ch as [|[k' c] ch IH]; simpl; [done|by rewrite IH].
Qed.

Lemma processBox_chains b :
  ∀ k above folders,
    FolderLister.processBox k b (FolderLister.path_above above) folders
    = folders ++ (FolderLister.entry_for "/" <$> FolderLister.chains_of k b above).
Proof.
  induction b as [d ch IH] using Box_nested_ind. intros k above folders.
  assert (Hself : FolderLister.entry k
            (FolderLister.fullPath (FolderLister.path_above above) k)
          = FolderLister.entry_for "/" (above ++ [k])).
  { unfold FolderLister.entry_for. by rewrite last_last, fullPath_chain. }
  destruct ch as [l|]; [|by simpl; rewrite Hself].
  rewrite processBox_children, chains_of_children, Hself.
  rewrite fullPath_chain, <- path_above_snoc, fmap_cons.
  assert (Hfold : ∀ here acc,
    fold_left (λ a kc, FolderLister.processBox kc.1 kc.2
                         (FolderLister.path_above here) a) l acc
    = acc ++ (FolderLister.entry_for "/" <$>
                flat_map (λ kc, FolderLister.chains_of kc.1 kc.2 here) l)).
  { intros here. induction IH as [|[k' c] l Hc _ IHl]; intros acc; simpl.
    - by rewrite app_nil_r.
    - rewrite Hc, IHl, fmap_app. by rewrite <- app_assoc. }
  rewrite Hfold. by rewrite <- app_assoc.
Qed.

Lemma processBoxes_chains boxes :
  ∀ above folders,
    FolderLister.processBoxes boxes (FolderLister.path_above above) folders
    = folders ++ (FolderLister.entry_for "/" <$> FolderLister.chains boxes above).
Proof.
  induction boxes as [|[k c] r IH]; intros above folders; simpl.
  - by rewrite app_nil_r.
  - rewrite processBox_chains, IH, fmap_app. by rewrite <- app_assoc.
Qed.

Lemma fullPath_append path box :
  FolderLister.fullPath path box = path +:+ box.
Proof. by destruct path. Qed.

Lemma spec_entries_of_chains b :
  ∀ k above,
    FolderLister.slash_only b = true →
    FolderLister.spec_entries_of k b (FolderLister.path_above above)
    = FolderLister.entry_for "/" <$> FolderLister.chains_of k b above.
Proof.
  induction b as [d ch IH] using Box_nested_ind. intros k above Hs.
  assert (Hself : FolderLister.entry k (FolderLister.path_above above +:+ k)
          = FolderLister.entry_for "/" (above ++ [k])).
  { unfold FolderLister.entry_for.
    by rewrite last_last, <- fullPath_append, fullPath_chain. }
  simpl in Hs. apply andb_prop in Hs as [Hd Hch].
  apply bool_decide_eq_true_1 in Hd as ->.
  destruct ch as [l|]; [|by simpl; rewrite Hself].
  rewrite chains_of_children, fmap_cons, <- Hself. simpl. f_equal.
  assert (FolderLister.path_above above +:+ k +:+ "/"
          = FolderLister.path_above (above ++ [k])) as ->.
  { rewrite path_above_snoc, <- fullPath_chain, fullPath_append.
    by rewrite string_app_assoc. }
  generalize (above ++ [k]) as here. intros here.
  induction IH as [|[k' c] l Hc _ IHl]; simpl; [done|].
  apply andb_prop in Hch as [Hc' Hl].
  by rewrite fmap_app, <- IHl, <- Hc.
Qed.

(** On a server whose delimiter is the slash throughout, the lister's
    entries are the ones the spec describes: the two differ in the
    delimiter only. *)
Lemma processBoxes_spec_entries_slash boxes :
  FolderLister.all_slash_only boxes = true →
  FolderLister.processBoxes boxes "" [] = FolderLister.spec_entries boxes.
Proof.
  intros Hs. change "" with (FolderLister.path_above []) at 1.
  rewrite processBoxes_chains. simpl.
  induction boxes as [|[k c] r IH]; simpl; [done|].
  simpl in Hs. apply andb_prop in Hs as [Hc Hr].
  rewrite fmap_app, IH by done.
  by rewrite <- (spec_entries_of_chains c k []).
Qed.

(** C6 (as the code has it): for a folder tree of any depth the lister
    emits, for every node and in the order visited, the entry whose [id]
    and [path] are the names from the root down to the node joined with
    ["/"] and whose [name] is the node's own name; the delimiter the server
    reports is not consulted. *)
Theorem folder_lister_complete_slash_paths
    (boxes : list (string * FolderLister.Box)) :
  FolderLister.list_folders boxes =
    ok (Folders
          ((λ chain, {| folder_id := Js.join "/" chain;
                        folder_name := List.last chain "";
                        folder_path := Js.join "/" chain;
                        unread := 0 |})
           <$> FolderLister.chains boxes [])).
Proof.
  unfold FolderLister.list_folders.
  change "" with (FolderLister.path_above []) at 1.
  by rewrite processBoxes_chains.
Qed.

(** C6 as stated fails: on a server whose hierarchy delimiter is a dot the
    child of INBOX is listed under a slash path. *)
Lemma folder_lister_ignores_server_delimiter :
  let boxes :=
    [("INBOX", FolderLister.MkBox "."
                 (Some [("Sent", FolderLister.MkBox "." None)]))] in
  FolderLister.spec_entries boxes
    = [FolderLister.entry "INBOX" "INBOX"; FolderLister.entry "Sent" "INBOX.Sent"]
  ∧ FolderLister.processBoxes boxes "" []
    = [FolderLister.entry "INBOX" "INBOX"; FolderLister.entry "Sent" "INBOX/Sent"]
  ∧ FolderLister.processBoxes boxes "" [] ≠ FolderLister.spec_entries boxes.
Proof. split_and!; [reflexivity|reflexivity|discriminate]. Qed.

(** *** Forwarding *)

Lemma forward_settled_stays evs st r :
  Forward.settled st = Some r →
  Forward.settled (foldl Forward.step st evs) = Some r.
Proof.
  revert st. induction evs as [|e evs IH]; intros st Hst; [done|].
  simpl. apply IH. destruct e; simpl; by rewrite Hst.
Qed.

Lemma forward_await_first e evs :
  Forward.await (e :: evs)
  = Forward.settled
      (Forward.step {| Forward.originalEmail := None; Forward.settled := None |} e).
Proof.
  unfold Forward.await. simpl.
  destruct (Forward.settled (Forward.step _ e)) as [r|] eqn:E.
  - by apply forward_settled_stays.
  - by destruct e.
Qed.



(** ** Further properties of the handlers *)

(** *** Listing pipeline *)

Lemma listing_exactly_one_response_witness :
  length (Listing.sent (Listing.run Listing.init
            [Listing.FetchError "x"; Listing.Timeout; Listing.FetchEnd])) = 1%nat.
Proof.
  apply (listing_exactly_one_response
           [Listing.FetchError "x"; Listing.Timeout; Listing.FetchEnd]).
  left. apply list_elem_of_In. simpl. auto.
Defined.

Lemma listing_pending_prefix evs e :
  Listing.hasResponded (Listing.run Listing.init (evs ++ [e])) = false →
  Listing.hasResponded (Listing.run Listing.init evs) = false.
Proof.
  rewrite listing_run_app. simpl. intros Hpend.
  destruct (Listing.hasResponded (Listing.run Listing.init evs)) eqn:E; [|done].
  by rewrite (listing_responded_stays _ e E) in Hpend.
Qed.

Lemma listing_error_listener_pending evs :
  Listing.hasResponded (Listing.run Listing.init evs) = false →
  Listing.error_listener (Listing.run Listing.init evs) = true.
Proof.
  induction evs as [|e evs IH] using rev_ind; [done|].
  intros Hpend. pose proof (listing_pending_prefix _ _ Hpend) as Hprev.
  specialize (IH Hprev). revert Hpend. rewrite listing_run_app. simpl.
  destruct (Listing.run Listing.init evs) as [r c t el en out]; simpl in *; subst.
  destruct e; simpl; unfold Listing.on_timeout, Listing.on_error, Listing.on_end;
    simpl; destruct t, en; simpl; done.
Qed.

(** X3: When the fetch reports an error while no response has been written,
    the summaries accumulated so far are sent with [partial:true]; with none
    accumulated the answer is a 500 carrying the error's message. *)
Theorem listing_fetch_error_partial_or_500 (evs : list Listing.Event)
    (message : string)
    (Hpending : Listing.hasResponded (Listing.run Listing.init evs) = false) :
  let acc := Listing.summarize <$> Listing.ended evs in
  Listing.sent (Listing.run Listing.init (evs ++ [Listing.FetchError message])) =
    [ match acc with
      | _ :: _ => {| status := 200; success := true; payload := Emails acc true |}
      | [] => {| status := 500; success := false; payload := Error message |}
      end ].
Proof.
  intros acc. rewrite listing_run_app. simpl.
  pose proof (listing_collected_pending evs Hpending) as Hc. fold acc in Hc.
  pose proof (listing_error_listener_pending evs Hpending) as Hel.
  pose proof (listing_inv_run evs _ listing_inv_init) as Hinv.
  unfold listing_inv in Hinv. rewrite Hpending in Hinv.
  destruct Hinv as (Hs & _ & _).
  unfold Listing.on_error. rewrite Hel, Hpending, Hs, Hc. simpl.
  destruct acc; reflexivity.
Qed.

Lemma listing_fetch_error_partial_or_500_witness :
  Listing.sent (Listing.run Listing.init [Listing.FetchError "socket closed"])
  = [ {| status := 500; success := false; payload := Error "socket closed" |} ].
Proof.
  apply (listing_fetch_error_partial_or_500 [] "socket closed"). reflexivity.
Defined.

(** Every summary the listing builds has a valid date. *)
Lemma summarize_date_valid m : ∃ ms, date (Listing.summarize m) = Valid ms.
Proof.
  unfold Listing.summarize.
  destruct (Listing.header m) as [h|], (Listing.attrs m) as [a|]; simpl;
    try destruct (Listing.h_date h) as [[ms|]|]; simpl; eauto.
Qed.

Lemma compare_valid a b x y :
  date a = Valid x → date b = Valid y → Listing.compare a b = y - x.
Proof. unfold Listing.compare. by intros -> ->. Qed.

Lemma insert_perm x l : Listing.insert x l ≡ₚ x :: l.
Proof.
  induction l as [|y l IH]; simpl; [done|].
  destruct (Listing.compare x y <=? 0); [done|].
  by rewrite IH, Permutation_swap.
Qed.

Lemma sort_perm l : Listing.sort l ≡ₚ l.
Proof.
  induction l as [|x l IH]; simpl; [done|].
  unfold Listing.sort in *. simpl. by rewrite insert_perm, IH.
Qed.

Lemma insert_sorted x l :
  (∃ ms, date x = Valid ms) →
  Forall (λ y, ∃ ms, date y = Valid ms) l →
  StronglySorted Facts.newer_first l →
  StronglySorted Facts.newer_first (Listing.insert x l).
Proof.
  intros [mx Hx] Hall Hsorted.
  induction Hsorted as [|y l Hl IH Hy]; simpl.
  - repeat constructor.
  - apply Forall_cons in Hall as [[my Hmy] Hall].
    rewrite (compare_valid x y mx my Hx Hmy).
    destruct (Z.leb_spec (my - mx) 0) as [Hle|Hgt].
    + constructor; [by constructor|].
      assert (Hxy : Facts.newer_first x y).
      { unfold Facts.newer_first. rewrite Hx, Hmy. lia. }
      constructor; [done|].
      eapply Forall_impl; [exact Hy|].
      intros z. unfold Facts.newer_first. rewrite Hx, Hmy.
      destruct (date z); [lia|done].
    + constructor; [by apply IH|].
      rewrite insert_perm. constructor; [|done].
      unfold Facts.newer_first. rewrite Hx, Hmy. lia.
Qed.

Lemma sort_sorted l :
  Forall (λ y, ∃ ms, date y = Valid ms) l →
  StronglySorted Facts.newer_first (Listing.sort l).
Proof.
  induction l as [|x l IH]; intros Hall; [constructor|].
  apply Forall_cons in Hall as [Hx Hall].
  unfold Listing.sort in *. simpl. apply insert_sorted; [done| |by apply IH].
  fold (Listing.sort l). by rewrite sort_perm.
Qed.

(** X4: When the fetch ends while no response has been written, the response
    carries no [partial] flag and its list holds exactly the summaries
    accumulated, newest first: every summary is listed before all summaries
    with an older date. *)
Theorem listing_completion_sorted (evs : list Listing.Event)
    (Hpending : Listing.hasResponded (Listing.run Listing.init evs) = false) :
  ∃ listed,
    Listing.sent (Listing.run Listing.init (evs ++ [Listing.FetchEnd]))
      = [ {| status := 200; success := true; payload := Emails listed false |} ]
    ∧ listed ≡ₚ Listing.summarize <$> Listing.ended evs
    ∧ StronglySorted Facts.newer_first listed.
Proof.
  exists (Listing.sort (Listing.summarize <$> Listing.ended evs)).
  split_and!.
  - rewrite listing_run_app. simpl.
    pose proof (listing_collected_pending evs Hpending) as Hc.
    pose proof (listing_inv_run evs _ listing_inv_init) as Hinv.
    unfold listing_inv in Hinv. rewrite Hpending in Hinv.
    destruct Hinv as (Hs & _ & Hen).
    unfold Listing.on_end. by rewrite Hen, Hpending, Hs, Hc.
  - apply sort_perm.
  - apply sort_sorted. apply Forall_fmap, Forall_forall.
    intros m _. apply summarize_date_valid.
Qed.

Lemma listing_completion_sorted_witness :
  ∃ listed,
    Listing.sent (Listing.run Listing.init
      [Listing.MessageEnd {| Listing.seqno := 1; Listing.now := 10;
                             Listing.attrs := None; Listing.header := None |};
       Listing.MessageEnd {| Listing.seqno := 2; Listing.now := 20;
                             Listing.attrs := None; Listing.header := None |};
       Listing.FetchEnd])
      = [ {| status := 200; success := true; payload := Emails listed false |} ]
    ∧ listed ≡ₚ Listing.summarize <$>
        [ {| Listing.seqno := 1; Listing.now := 10;
             Listing.attrs := None; Listing.header := None |};
          {| Listing.seqno := 2; Listing.now := 20;
             Listing.attrs := None; Listing.header := None |} ]
    ∧ StronglySorted Facts.newer_first listed.
Proof.
  apply (listing_completion_sorted
    [Listing.MessageEnd {| Listing.seqno := 1; Listing.now := 10;
                           Listing.attrs := None; Listing.header := None |};
     Listing.MessageEnd {| Listing.seqno := 2; Listing.now := 20;
                           Listing.attrs := None; Listing.header := None |}]).
  reflexivity.
Defined.

(** X5: The summary's [id] is the UID whenever the attributes carry a non-zero
    one, and the sequence number otherwise; the header block never changes
    it. *)
Theorem summary_id_is_uid_or_seqno (m : Listing.Message) :
  match Listing.attrs m ≫= Listing.attr_uid with
  | Some u =>
      if u =? 0
      then id (Listing.summarize m) = pretty (Listing.seqno m)
           ∧ uid (Listing.summarize m) = None
      else id (Listing.summarize m) = pretty u
           ∧ uid (Listing.summarize m) = Some (pretty u)
  | None =>
      id (Listing.summarize m) = pretty (Listing.seqno m)
      ∧ uid (Listing.summarize m) = None
  end.
Proof.
  unfold Listing.summarize.
  destruct (Listing.attrs m) as [[[u|] fl st]|], (Listing.header m) as [h|]; simpl;
    try destruct (u =? 0); simpl; done.
Qed.

(** *** Single-message pipeline *)

(** Case analysis on the variables that the handlers of one event test. *)
Ltac single_cases :=
  unfold Single.on_timeout, Single.on_parsed, Single.on_parsed_to_array,
    Single.on_parse_failed,
    Single.on_stream_threw, Single.on_uid_error, Single.on_uid_end,
    Single.on_seq_error, Single.on_seq_end, Single.seq_end_body; simpl;
  repeat (match goal with
    | |- context [match ?o with Some _ => _ | None => _ end] =>
        is_var o; destruct o as [?|]
    | |- context [match ?p with (_, _) => _ end] => is_var p; destruct p
    | |- context [if ?b then _ else _] => is_var b; destruct b
    | |- context [negb ?b] => is_var b; destruct b
    | |- context [match ?f with Single.ViaError => _ | Single.ViaEnd => _ end] =>
        is_var f; destruct f
    end; simpl).

(** The responses written, by the state of the flag and of the watchdog. *)
Lemma single_sent_count id evs :
  let s := Single.run id Single.init evs in
  match Single.hasResponded s, Single.timer s with
  | false, true => length (Single.sent s) = 0%nat
  | false, false => length (Single.sent s) = 1%nat
  | true, false => (1 ≤ length (Single.sent s) ≤ 2)%nat
  | true, true => False
  end.
Proof.
  induction evs as [|e evs IH] using rev_ind; [done|].
  rewrite single_run_app. simpl in *.
  destruct (Single.run id Single.init evs)
    as [r fc fs t ue un se sn out fl]; simpl in *.
  destruct r, t; try done;
  destruct e; simpl; single_cases;
    rewrite ?length_app; simpl; try done; try lia.
Qed.

(** X6: The single-message handler never writes more than two responses for a
    request: the watchdog's 504 and at most one other. *)
Theorem single_at_most_two_responses (id : string) (evs : list Single.Event) :
  (length (Single.sent (Single.run id Single.init evs)) ≤ 2)%nat.
Proof.
  pose proof (single_sent_count id evs) as H. simpl in H.
  destruct (Single.hasResponded _), (Single.timer _); lia.
Qed.

Lemma single_no_timeout_count id evs :
  forallb (λ e, negb (Facts.is_timeout e)) evs = true →
  let s := Single.run id Single.init evs in
  length (Single.sent s) = if Single.hasResponded s then 1%nat else 0%nat.
Proof.
  induction evs as [|e evs IH] using rev_ind; [done|].
  rewrite forallb_app. simpl. intros [Hevs He]%andb_prop.
  specialize (IH Hevs). rewrite single_run_app. simpl in *.
  destruct (Single.run id Single.init evs)
    as [r fc fs t ue un se sn out fl]; simpl in *.
  destruct r; destruct e; simpl in *; try discriminate; single_cases;
    rewrite ?length_app; simpl; try done; try lia.
Qed.

(** X7: As long as the watchdog does not fire, the single-message handler
    writes at most one response, whatever the fetches and the parser
    deliver. *)
Theorem single_one_response_without_watchdog
    (id : string) (evs : list Single.Event)
    (Hquiet : forallb (λ e, negb (Facts.is_timeout e)) evs = true) :
  (length (Single.sent (Single.run id Single.init evs)) ≤ 1)%nat.
Proof.
  pose proof (single_no_timeout_count id evs Hquiet) as H. simpl in H.
  destruct (Single.hasResponded _); lia.
Qed.

Lemma single_one_response_without_watchdog_witness :
  (length (Single.sent (Single.run "7" Single.init
     [Single.UidError "x" None; Single.UidEnd None;
      Single.SeqEnd Single.ViaError; Single.SeqEnd Single.ViaEnd;
      Single.StreamThrew "y"])) ≤ 1)%nat.
Proof.
  apply (single_one_response_without_watchdog "7"). reflexivity.
Defined.

Lemma single_flagged_inv id evs :
  let s := Single.run id Single.init evs in
  (Single.fetchCompleted s = false → Single.flagged s = [])
  ∧ (Single.flagged s = [] ∨ Single.flagged s = [id]).
Proof.
  induction evs as [|e evs IH] using rev_ind; [by split; [|left]|].
  rewrite single_run_app. simpl in *.
  destruct (Single.run id Single.init evs)
    as [r fc fs t ue un se sn out fl]; simpl in *.
  destruct IH as [IH1 IH2].
  destruct fc; destruct e; simpl; single_cases;
    try (rewrite IH1 by done); simpl; auto; split; auto; try discriminate.
Qed.

(** X8: The [\Seen] flag is set at most once per request, and only on the id
    asked for. *)
Theorem single_setFlags_at_most_once (id : string) (evs : list Single.Event) :
  Single.flagged (Single.run id Single.init evs) = []
  ∨ Single.flagged (Single.run id Single.init evs) = [id].
Proof. apply (single_flagged_inv id evs). Qed.

(** X9: Without a successful parse the message is never marked as read. *)
Theorem single_no_flag_without_parse (id : string) (evs : list Single.Event)
    (Hnone : forallb (λ e, negb (Facts.is_parsed e)) evs = true) :
  Single.flagged (Single.run id Single.init evs) = [].
Proof.
  induction evs as [|e evs IH] using rev_ind; [done|].
  revert Hnone. rewrite forallb_app. simpl. intros [Hevs He]%andb_prop.
  specialize (IH Hevs). rewrite single_run_app. simpl in *.
  destruct (Single.run id Single.init evs)
    as [r fc fs t ue un se sn out fl]; simpl in *. subst fl.
  destruct e; simpl in *; try discriminate; single_cases; done.
Qed.

Lemma single_no_flag_without_parse_witness :
  Single.flagged (Single.run "7" Single.init
    [Single.ParseFailed 0 "bad MIME"; Single.UidEnd None]) = [].
Proof. apply (single_no_flag_without_parse "7"). reflexivity. Defined.

Lemma single_no_success_without_uid_message_witness :
  Forall (λ r, success r = false)
    (Single.sent (Single.run "7" Single.init
       [Single.UidEnd None;
        Single.SeqMessage Single.ViaEnd
          {| Single.p_subject := Some "found"; Single.p_from := None;
             Single.p_to := None; Single.p_date := None;
             Single.text := Some "body"; Single.html := None;
             Single.textAsHtml := None; Single.attachments := None |};
        Single.SeqEnd Single.ViaEnd])).
Proof. apply (single_no_success_without_uid_message "7"). reflexivity. Defined.

(** X11: A 404 is written only by the [end] listener of a sequence-number
    fetch: while no such fetch has ended, no response has status 404. *)
Theorem single_404_only_after_fallback (id : string) (evs : list Single.Event)
    (Hnone : forallb (λ e, negb (Facts.is_seq_end e)) evs = true) :
  Forall (λ r, status r ≠ 404) (Single.sent (Single.run id Single.init evs)).
Proof.
  induction evs as [|e evs IH] using rev_ind; [constructor|].
  revert Hnone. rewrite forallb_app. simpl. intros [Hevs He]%andb_prop.
  specialize (IH Hevs). rewrite single_run_app. simpl in *.
  destruct (Single.run id Single.init evs)
    as [r fc fs t ue un se sn out fl]; simpl in *.
  destruct e; simpl in *; try discriminate; single_cases;
    rewrite ?Forall_app; repeat split; try done; by repeat constructor.
Qed.

Lemma single_404_only_after_fallback_witness :
  Forall (λ r, status r ≠ 404)
    (Single.sent (Single.run "7" Single.init
       [Single.UidError "x" None; Single.SeqError Single.ViaError "y"])).
Proof. apply (single_404_only_after_fallback "7"). reflexivity. Defined.

(** *** Sanitizer and the plain-text fallback *)

Lemma has_char_app c a b :
  Facts.has_char c (a +:+ b) = Facts.has_char c a || Facts.has_char c b.
Proof.
  induction a as [|x a IH]; [done|].
  change (Facts.has_char c (String x (a +:+ b))
          = Facts.has_char c (String x a) || Facts.has_char c b).
  simpl. by rewrite IH, orb_assoc.
Qed.

Lemma replace_char_removes c by_ s :
  Facts.has_char c by_ = false →
  Facts.has_char c (Text.replace_char c by_ s) = false.
Proof.
  intros Hby. induction s as [|d s IH]; [done|]. simpl.
  destruct (Text.char_eqb c d) eqn:E.
  - by rewrite has_char_app, Hby, IH.
  - simpl. by rewrite E, IH.
Qed.

Lemma replace_char_keeps_out c d by_ s :
  Facts.has_char c by_ = false →
  Facts.has_char c s = false →
  Facts.has_char c (Text.replace_char d by_ s) = false.
Proof.
  intros Hby. induction s as [|x s IH]; [done|]. simpl.
  intros [Hx Hs]%orb_false_elim.
  destruct (Text.char_eqb d x).
  - by rewrite has_char_app, Hby, IH.
  - simpl. by rewrite Hx, IH.
Qed.

(** The escaped text holds no angle bracket. *)
Lemma escape_no_angle t :
  Facts.has_char "<" (Single.escape t) = false
  ∧ Facts.has_char ">" (Single.escape t) = false.
Proof.
  unfold Single.escape. split.
  - apply replace_char_keeps_out; [done|]. by apply replace_char_removes.
  - by apply replace_char_removes.
Qed.

Lemma char_eqb_eq a b : Text.char_eqb a b = true → a = b.
Proof.
  unfold Text.char_eqb, Text.code. intros H%N.eqb_eq.
  by rewrite <- (ascii_N_embedding a), <- (ascii_N_embedding b), H.
Qed.

Lemma replace_char_app c by_ a b :
  Text.replace_char c by_ (a +:+ b)
  = Text.replace_char c by_ a +:+ Text.replace_char c by_ b.
Proof.
  induction a as [|x a IH]; [done|].
  change (String x a +:+ b) with (String x (a +:+ b)).
  cbn [Text.replace_char]. destruct (Text.char_eqb c x).
  - by rewrite IH, string_app_assoc.
  - rewrite IH. done.
Qed.

Lemma char_eqb_refl c : Text.char_eqb c c = true.
Proof. apply N.eqb_refl. Qed.

Lemma char_eqb_neq a b : a ≠ b → Text.char_eqb a b = false.
Proof.
  intros Hne. destruct (Text.char_eqb a b) eqn:E; [|done].
  by apply char_eqb_eq in E.
Qed.

(** The three chained replacements amount to writing every ampersand and
    angle bracket of the text as its entity. *)
Lemma escape_entities t : Single.escape t = Facts.entities t.
Proof.
  unfold Single.escape. induction t as [|c t IH]; [done|].
  cbn [Facts.entities].
  change (String c t) with (String c "" +:+ t).
  rewrite !replace_char_app, IH. f_equal.
  destruct (decide (c = "&"%char)) as [->|Hamp]; [done|].
  destruct (decide (c = "<"%char)) as [->|Hlt]; [done|].
  destruct (decide (c = ">"%char)) as [->|Hgt]; [done|].
  cbn [Text.replace_char].
  rewrite (char_eqb_neq "&" c) by done. cbn [Text.replace_char].
  rewrite (char_eqb_neq "<" c) by done. cbn [Text.replace_char].
  by rewrite (char_eqb_neq ">" c) by done.
Qed.

(** X12: For a message with neither an html part nor a [textAsHtml] rendering
    but with text, the body is the text between [<pre>] and [</pre>] with
    every ampersand and angle bracket of the text written as its entity;
    the part in between holds no angle bracket: markup in a plain-text mail
    cannot reach the client as markup. *)
Theorem text_only_body_is_escaped (parsed : Single.Parsed) (t : string)
    (Hnohtml : Js.truthy (Single.html parsed) = false)
    (Hnoalt : Js.truthy (Single.textAsHtml parsed) = false)
    (Ht : Single.text parsed = Some t) (Hne : t ≠ "") :
  Single.sanitizedHtml parsed = "<pre>" +:+ Facts.entities t +:+ "</pre>"
  ∧ Facts.has_char "<" (Facts.entities t) = false
  ∧ Facts.has_char ">" (Facts.entities t) = false.
Proof.
  rewrite <- escape_entities. split; [|apply escape_no_angle].
  unfold Single.sanitizedHtml. rewrite Ht.
  destruct (Single.html parsed) as [[|? ?]|]; try discriminate;
    destruct (Single.textAsHtml parsed) as [[|? ?]|]; try discriminate;
    by destruct t.
Qed.

Lemma text_only_body_is_escaped_witness :
  Single.sanitizedHtml
    {| Single.p_subject := None; Single.p_from := None; Single.p_to := None;
       Single.p_date := None; Single.text := Some "a<b> & <script>x</script>";
       Single.html := None; Single.textAsHtml := None;
       Single.attachments := None |}
  = "<pre>a&lt;b&gt; &amp; &lt;script&gt;x&lt;/script&gt;</pre>"
  ∧ Facts.has_char "<" (Facts.entities "a<b> & <script>x</script>") = false
  ∧ Facts.has_char ">" (Facts.entities "a<b> & <script>x</script>") = false.
Proof.
  apply (text_only_body_is_escaped _ "a<b> & <script>x</script>");
    [reflexivity|reflexivity|reflexivity|discriminate].
Defined.

Lemma remove_from_no_match m s :
  Text.occurs m s = false → Text.remove_from m O s = s.
Proof.
  induction s as [|c s IH]; [done|]. simpl.
  destruct (m (String c s)) as [n|]; [discriminate|].
  intros H. by rewrite IH.
Qed.

(** X13: Html in which none of the three expressions matches anywhere is
    returned unchanged. *)
Theorem strip_leaves_clean_html_unchanged (html : string)
    (Hscript : Text.occurs Single.script_block html = false)
    (Hdouble : Text.occurs (Single.handler_attr Single.dquote) html = false)
    (Hsingle : Text.occurs (Single.handler_attr Single.squote) html = false) :
  Single.strip html = html.
Proof.
  unfold Single.strip, Text.remove_all.
  by rewrite (remove_from_no_match _ _ Hscript),
    (remove_from_no_match _ _ Hdouble), (remove_from_no_match _ _ Hsingle).
Qed.

Lemma strip_leaves_clean_html_unchanged_witness :
  Single.strip "<p>Hello <b>world</b>, see <a href='x'>online</a></p>"
  = "<p>Hello <b>world</b>, see <a href='x'>online</a></p>".
Proof.
  apply strip_leaves_clean_html_unchanged; reflexivity.
Defined.

Lemma remove_from_length m s :
  ∀ skip, (String.length (Text.remove_from m skip s) ≤ String.length s)%nat.
Proof.
  induction s as [|c s IH]; intros skip; simpl; [lia|].
  destruct skip as [|k].
  - destruct (m (String c s)) as [[|k]|]; simpl.
    + specialize (IH O). lia.
    + specialize (IH k). lia.
    + specialize (IH O). lia.
  - specialize (IH k). lia.
Qed.

(** X14: The sanitizer only removes: its output is never longer than its
    input. *)
Theorem strip_never_longer (html : string) :
  (String.length (Single.strip html) ≤ String.length html)%nat.
Proof.
  unfold Single.strip, Text.remove_all.
  etrans; [apply remove_from_length|].
  etrans; [apply remove_from_length|]. apply remove_from_length.
Qed.

(** *** Forwarding *)

(** X15: The forward's subject always starts with [Fwd:], and forwarding a
    forwarded message does not prefix it again. *)
Theorem fwd_subject_prefixed_once (o : Single.Parsed) :
  Text.startsWith (Forward.fwd_subject o) "Fwd:" = true
  ∧ Forward.fwd_subject (Facts.with_subject o (Forward.fwd_subject o))
    = Forward.fwd_subject o.
Proof.
  assert (Hstart : Text.startsWith (Forward.fwd_subject o) "Fwd:" = true).
  { unfold Forward.fwd_subject.
    destruct (Single.p_subject o) as [sub|]; [|done].
    by destruct (Text.startsWith sub "Fwd:") eqn:E. }
  split; [done|].
  unfold Forward.fwd_subject at 1. simpl. by rewrite Hstart.
Qed.


(** X17: When the original is parsed first, the forward is composed from it
    (later events, the end of the fetch included, change nothing): its
    attachments are carried over as they are, and the html part is empty
    exactly when the original has no html. *)
Theorem forward_uses_parsed_original
    (toLocaleString : JsDate → string) (now : Z)
    (sendMail : Forward.Transport → Forward.MailOptions → string + string)
    (imap : Session.Imap) (b : Forward.Body)
    (original : Single.Parsed) (later : list Forward.Event) :
  let mail := Forward.mailOptions toLocaleString now imap b original in
  Forward.forward toLocaleString now sendMail imap b
    (Forward.MessageParsed original :: later)
  = Some match sendMail (Forward.transport imap) mail with
         | inl mid => {| status := 200; success := true; payload := MessageId mid |}
         | inr m => {| status := 500; success := false; payload := Error m |}
         end
  ∧ Forward.m_attachments mail = default [] (Single.attachments original)
  ∧ (Forward.m_html mail = "" ↔ Js.truthy (Single.html original) = false).
Proof.
  intros mail. split_and!.
  - unfold Forward.forward. rewrite forward_await_first. simpl.
    fold mail. by destruct (sendMail _ mail).
  - done.
  - unfold mail. simpl. unfold Forward.forwardedHtml.
    destruct (Single.html original) as [[|c r]|]; simpl; [done| |done].
    split; [|done]. by destruct (Js.truthy (Forward.additionalText b)).
Qed.

(** *** Session registry *)

(** X18: After a logout, a request with the same session id is rejected with
    the 401 on every session-bearing route, whether or not the id was
    registered before. *)
Theorem logout_then_rejected
    (e : Session.Endpoint) (reg : gmap string Session.Imap) (r : Session.Request) :
  Session.enter e
    (Registry.remaining (Registry.logout reg (Session.sessionId r))) r
  = {| Session.touched := [];
       Session.replied := Some (fail 401 "Ungültige Session") |}.
Proof.
  assert (Hrej : Session.rejects
            (Registry.remaining (Registry.logout reg (Session.sessionId r)))
            (Session.sessionId r) = true).
  { apply rejects_unregistered. unfold Session.unregistered, Registry.logout.
    destruct (Session.sessionId r) as [[|c s]|]; [by left| |done].
    right. destruct (reg !! String c s) eqn:E; simpl; [|done].
    apply lookup_delete_eq. }
  destruct e; simpl;
    unfold Session.enter_folders, Session.enter_emails, Session.enter_email_by_id,
      Session.enter_send_email, Session.enter_forward_email;
    by rewrite Hrej.
Qed.

Lemma enter_depends_on_lookup e reg reg' r :
  (∀ s, Session.sessionId r = Some s → reg' !! s = reg !! s) →
  Session.enter e reg' r = Session.enter e reg r.
Proof.
  intros Hsame.
  assert (Hrej : Session.rejects reg' (Session.sessionId r)
                 = Session.rejects reg (Session.sessionId r)).
  { unfold Session.rejects. destruct (Session.sessionId r) as [s|]; [|done].
    by rewrite Hsame. }
  assert (Hget : Session.get reg' (Session.sessionId r)
                 = Session.get reg (Session.sessionId r)).
  { unfold Session.get. destruct (Session.sessionId r) as [s|]; [|done].
    simpl. by rewrite Hsame. }
  destruct e; simpl;
    unfold Session.enter_folders, Session.enter_emails, Session.enter_email_by_id,
      Session.enter_send_email, Session.enter_forward_email;
    by rewrite Hrej, Hget.
Qed.

(** X19: A logout ends at most the one connection registered under its id and
    leaves every other session as it was: requests of other sessions are
    handled exactly as before. *)
Theorem logout_leaves_other_sessions
    (e : Session.Endpoint) (reg : gmap string Session.Imap)
    (sid : option string) (r : Session.Request)
    (Hother : Session.sessionId r ≠ sid) :
  Session.enter e (Registry.remaining (Registry.logout reg sid)) r
  = Session.enter e reg r
  ∧ (length (Registry.ended (Registry.logout reg sid)) ≤ 1)%nat
  ∧ Registry.logout_success (Registry.logout reg sid) = true.
Proof.
  split_and!.
  - apply enter_depends_on_lookup. intros s Hs.
    unfold Registry.logout. destruct sid as [[|c s']|]; try done.
    destruct (reg !! String c s') eqn:E; simpl; [|done].
    apply lookup_delete_ne. congruence.
  - unfold Registry.logout. destruct sid as [[|c s']|]; simpl; try lia.
    destruct (reg !! String c s'); simpl; lia.
  - unfold Registry.logout. destruct sid as [[|c s']|]; simpl; try done.
    by destruct (reg !! String c s').
Qed.

Lemma logout_leaves_other_sessions_witness :
  let a := {| Session.user := "a@web.de"; Session.password := "pa";
              Session.host := "imap.web.de" |} in
  let b := {| Session.user := "b@gmx.net"; Session.password := "pb";
              Session.host := "imap.gmx.net" |} in
  let reg : gmap string Session.Imap := <["k3x9" := a]> (<["q7p2" := b]> ∅) in
  let r := {| Session.sessionId := Some "q7p2"; Session.folder := None |} in
  Session.enter Session.emails
    (Registry.remaining (Registry.logout reg (Some "k3x9"))) r
  = Session.enter Session.emails reg r
  ∧ (length (Registry.ended (Registry.logout reg (Some "k3x9"))) ≤ 1)%nat
  ∧ Registry.logout_success (Registry.logout reg (Some "k3x9")) = true.
Proof.
  intros a b reg r.
  apply (logout_leaves_other_sessions Session.emails reg (Some "k3x9") r).
  discriminate.
Defined.

(** X20: After a successful connect, requests carrying the id handed out are let
    through on every session-bearing route and work on the handle just
    registered, provided the id is not the empty string; a failed connect
    registers nothing. *)
Theorem connect_then_admitted
    (e : Session.Endpoint) (reg : gmap string Session.Imap)
    (imap : Session.Imap) (fresh : string) (fld : option string)
    (Hne : fresh ≠ "") :
  let r := {| Session.sessionId := Some fresh; Session.folder := fld |} in
  let after := (Registry.connect reg (inl imap) fresh).1 in
  (Registry.connect reg (inl imap) fresh).2 = Registry.ConnectOk fresh
  ∧ Session.replied (Session.enter e after r) = None
  ∧ (Session.touched (Session.enter e after r)).*1 = [imap]
  ∧ ∀ message, (Registry.connect reg (inr message) fresh).1 = reg.
Proof.
  intros r after. split_and!; [done| | |done].
  - assert (Hrej : Session.rejects after (Session.sessionId r) = false).
    { unfold Session.rejects, after. simpl.
      destruct fresh as [|c s]; [done|]. simpl.
      rewrite lookup_insert_eq. by rewrite bool_decide_eq_true_2. }
    assert (Hget : Session.get after (Session.sessionId r) = Some imap).
    { unfold Session.get, after. simpl. apply lookup_insert_eq. }
    destruct e; simpl;
      unfold Session.enter_folders, Session.enter_emails, Session.enter_email_by_id,
        Session.enter_send_email, Session.enter_forward_email;
      by rewrite Hrej, Hget.
  - assert (Hrej : Session.rejects after (Session.sessionId r) = false).
    { unfold Session.rejects, after. simpl.
      destruct fresh as [|c s]; [done|]. simpl.
      rewrite lookup_insert_eq. by rewrite bool_decide_eq_true_2. }
    assert (Hget : Session.get after (Session.sessionId r) = Some imap).
    { unfold Session.get, after. simpl. apply lookup_insert_eq. }
    destruct e; simpl;
      unfold Session.enter_folders, Session.enter_emails, Session.enter_email_by_id,
        Session.enter_send_email, Session.enter_forward_email;
      by rewrite Hrej, Hget.
Qed.

Lemma connect_then_admitted_witness :
  let imap := {| Session.user := "a@web.de"; Session.password := "pa";
                 Session.host := "imap.web.de" |} in
  let r := {| Session.sessionId := Some "k3x9"; Session.folder := None |} in
  let after := (Registry.connect ∅ (inl imap) "k3x9").1 in
  (Registry.connect ∅ (inl imap) "k3x9").2 = Registry.ConnectOk "k3x9"
  ∧ Session.replied (Session.enter Session.send_email after r) = None
  ∧ (Session.touched (Session.enter Session.send_email after r)).*1 = [imap]
  ∧ ∀ message, (Registry.connect ∅ (inr message) "k3x9").1 = ∅.
Proof.
  intros imap r after.
  apply (connect_then_admitted Session.send_email ∅ imap "k3x9" None).
  discriminate.
Defined.

(** *** Outbound transport and recipients *)

Lemma replace_first_absent pat by_ s :
  Text.occurs (λ x, match Text.literal false pat x with
                    | Some _ => Some 5%nat | None => None end) s = false →
  Forward.replace_first pat by_ s = s.
Proof.
  induction s as [|c s IH]; simpl.
  - by destruct (Text.literal false pat "").
  - destruct (Text.literal false pat (String c s)); [discriminate|].
    intros H. by rewrite IH.
Qed.

(** X21: With an IMAP host of the form [imap.<domain>] and no host override in
    the request, mail is submitted to [smtp.<domain>], by the send route and
    by the forward route alike. *)
Theorem smtp_host_derived_from_imap_host
    (imap : Session.Imap) (e : Send.Email) (domain : string)
    (Hnone : Js.truthy (Send.smtpConfig e ≫= Send.c_host) = false)
    (Hhost : Session.host imap = "imap." +:+ domain) :
  Forward.smtp_host (Send.transport imap e) = "smtp." +:+ domain
  ∧ Forward.smtp_host (Forward.transport imap) = "smtp." +:+ domain.
Proof.
  simpl. unfold Send.smtpHost. rewrite Hhost.
  destruct (Send.smtpConfig e ≫= Send.c_host) as [[|c r]|]; try discriminate; done.
Qed.

Lemma smtp_host_derived_from_imap_host_witness :
  let imap := {| Session.user := "a@web.de"; Session.password := "pa";
                 Session.host := "imap.web.de" |} in
  let e := {| Send.to := Some (Forward.One "b@web.de"); Send.cc := None;
              Send.bcc := None; Send.subject := Some "hi"; Send.text := Some "hi";
              Send.html := None; Send.smtpConfig := None |} in
  Forward.smtp_host (Send.transport imap e) = "smtp.web.de"
  ∧ Forward.smtp_host (Forward.transport imap) = "smtp.web.de".
Proof.
  intros imap e.
  apply (smtp_host_derived_from_imap_host imap e "web.de"); reflexivity.
Defined.

(** X22: When the IMAP host does not contain the label [imap.] and the request
    gives no host override, mail is submitted to the IMAP host itself. *)
Theorem smtp_host_without_imap_label
    (imap : Session.Imap) (e : Send.Email)
    (Hnone : Js.truthy (Send.smtpConfig e ≫= Send.c_host) = false)
    (Hhost : Text.occurs Facts.imap_label (Session.host imap) = false) :
  Forward.smtp_host (Send.transport imap e) = Session.host imap
  ∧ Forward.smtp_host (Forward.transport imap) = Session.host imap.
Proof.
  simpl. unfold Send.smtpHost.
  rewrite (replace_first_absent "imap." "smtp." _ Hhost).
  destruct (Send.smtpConfig e ≫= Send.c_host) as [[|c r]|]; try discriminate; done.
Qed.

Lemma smtp_host_without_imap_label_witness :
  let imap := {| Session.user := "a@example.org"; Session.password := "pa";
                 Session.host := "mail.example.org" |} in
  let e := {| Send.to := Some (Forward.One "b@web.de"); Send.cc := None;
              Send.bcc := None; Send.subject := Some "hi"; Send.text := Some "hi";
              Send.html := None; Send.smtpConfig := None |} in
  Forward.smtp_host (Send.transport imap e) = "mail.example.org"
  ∧ Forward.smtp_host (Forward.transport imap) = "mail.example.org".
Proof.
  intros imap e.
  apply (smtp_host_without_imap_label imap e); reflexivity.
Defined.

(** *** Lenient address parsing of the listing *)

Lemma drop_space_suffix_no_char c s :
  Facts.has_char c s = false → Facts.has_char c (HeaderParse.drop_space s) = false.
Proof.
  induction s as [|d s IH]; [done|]. simpl.
  intros [Hd Hs]%orb_false_elim.
  destruct (HeaderParse.is_space d); [by apply IH|].
  simpl. by rewrite Hd, Hs.
Qed.

Lemma bracketed_needs_lt s :
  Facts.has_char "<" s = false → HeaderParse.bracketed s = None.
Proof.
  intros H%drop_space_suffix_no_char. unfold HeaderParse.bracketed.
  destruct (HeaderParse.drop_space s) as [|c r]; [done|].
  simpl in H. apply orb_false_elim in H as [Hc _].
  unfold Text.char_eqb in *. rewrite N.eqb_sym in Hc. by rewrite Hc.
Qed.

Lemma at_head_needs_lt s :
  Facts.has_char "<" s = false → HeaderParse.at_head s = None.
Proof.
  induction s as [|c s IH]; intros H.
  - done.
  - cbn [HeaderParse.at_head]. rewrite (bracketed_needs_lt _ H).
    simpl in H. apply orb_false_elim in H as [_ Hs].
    rewrite (IH Hs). by destruct (HeaderParse.is_line_terminator c).
Qed.

Lemma address_match_needs_lt s :
  Facts.has_char "<" s = false → HeaderParse.address_match s = None.
Proof.
  induction s as [|c s IH]; intros H.
  - done.
  - cbn [HeaderParse.address_match]. rewrite (at_head_needs_lt _ H).
    simpl in H. apply orb_false_elim in H as [_ Hs]. by apply IH.
Qed.

(** X24: A [From] or [To] value without an opening angle bracket is taken as a
    bare address: the whole value becomes the address and the name stays
    empty. *)
Theorem bare_address_kept_whole (raw : string)
    (Hbare : Facts.has_char "<" raw = false) :
  HeaderParse.parse_address raw = {| name := ""; address := raw |}.
Proof.
  unfold HeaderParse.parse_address. by rewrite (address_match_needs_lt _ Hbare).
Qed.

Lemma bare_address_kept_whole_witness :
  HeaderParse.parse_address "john.doe@example.org"
  = {| name := ""; address := "john.doe@example.org" |}.
Proof. apply bare_address_kept_whole. reflexivity. Defined.

Lemma upto_last_gt_closing addr :
  Facts.one_line addr = true →
  HeaderParse.upto_last_gt (addr +:+ ">") = Some addr.
Proof.
  induction addr as [|c r IH]; [done|].
  change (String c r +:+ ">") with (String c (r +:+ ">")).
  simpl. intros [Hc Hr]%andb_prop.
  apply negb_true_iff in Hc. rewrite Hc. by rewrite IH.
Qed.

Lemma drop_space_all_space w s :
  Facts.all_space w = true →
  HeaderParse.drop_space (w +:+ s) = HeaderParse.drop_space s.
Proof.
  induction w as [|c w IH]; [done|].
  change (String c w +:+ s) with (String c (w +:+ s)).
  simpl. intros [Hc Hw]%andb_prop. rewrite Hc. by apply IH.
Qed.

Lemma trim_end_all_space w :
  Facts.all_space w = true ↔ HeaderParse.trim_end w = "".
Proof.
  induction w as [|c w IH]; [done|]. simpl.
  destruct (HeaderParse.trim_end w) as [|d t] eqn:E.
  - destruct (HeaderParse.is_space c); simpl; [|done].
    split; [done|]. intros _. by apply IH.
  - rewrite andb_true_iff. split; [|done].
    intros [_ Hw]. by apply IH in Hw.
Qed.

Lemma drop_space_not_all_space name s :
  Facts.all_space name = false →
  HeaderParse.drop_space (name +:+ s)
  = HeaderParse.drop_space name +:+ s
  ∧ ∃ c r, HeaderParse.drop_space name = String c r
           ∧ Facts.has_char c name = true.
Proof.
  induction name as [|c name IH]; [done|].
  change (String c name +:+ s) with (String c (name +:+ s)).
  simpl. destruct (HeaderParse.is_space c) eqn:Hc; simpl.
  - intros Hn. destruct (IH Hn) as (-> & d & r & -> & Hd).
    split; [done|]. exists d, r. split; [done|]. by rewrite Hd, orb_true_r.
  - intros _. split; [done|]. exists c, name. split; [done|].
    unfold Text.char_eqb. by rewrite N.eqb_refl.
Qed.

(** The lazy first group stops where only white space separates it from
    the bracket. *)
Lemma at_head_name_addr name addr :
  Facts.has_char "<" name = false →
  Facts.one_line name = true →
  Facts.one_line addr = true →
  HeaderParse.at_head (name +:+ " <" +:+ addr +:+ ">")
  = Some (HeaderParse.trim_end name, addr).
Proof.
  intros Hlt Hline Haddr.
  set (tail := " <" +:+ addr +:+ ">").
  assert (Hdrop : HeaderParse.drop_space tail = String "<" (addr +:+ ">")) by done.
  assert (Htail : HeaderParse.bracketed tail = Some addr).
  { unfold HeaderParse.bracketed. rewrite Hdrop. simpl.
    apply (upto_last_gt_closing _ Haddr). }
  induction name as [|c name IH].
  - change ("" +:+ tail) with tail.
    unfold tail at 1. change (" <" +:+ addr +:+ ">")
      with (String " " (String "<" (addr +:+ ">"))).
    cbn [HeaderParse.at_head]. fold tail.
    change (String " " (String "<" (addr +:+ ">"))) with tail.
    by rewrite Htail.
  - change (String c name +:+ tail) with (String c (name +:+ tail)).
    cbn [HeaderParse.at_head].
    simpl in Hlt. apply orb_false_elim in Hlt as [Hc Hlt].
    simpl in Hline. apply andb_prop in Hline as [Hlc Hline].
    apply negb_true_iff in Hlc.
    specialize (IH Hlt Hline).
    destruct (Facts.all_space (String c name)) eqn:Hall.
    + unfold HeaderParse.bracketed.
      change (String c (name +:+ tail)) with (String c name +:+ tail).
      rewrite (drop_space_all_space _ _ Hall), Hdrop. simpl.
      rewrite (upto_last_gt_closing _ Haddr).
      apply trim_end_all_space in Hall.
      change (Some ("", addr) = Some (HeaderParse.trim_end (String c name), addr)).
      by rewrite Hall.
    + assert (Hnone : HeaderParse.bracketed (String c (name +:+ tail)) = None).
      { unfold HeaderParse.bracketed.
        change (String c (name +:+ tail)) with (String c name +:+ tail).
        destruct (drop_space_not_all_space (String c name) tail Hall)
          as (-> & d & r & -> & Hd).
        change (String d r +:+ tail) with (String d (r +:+ tail)).
        cbv beta iota.
        destruct (Text.char_eqb d "<") eqn:E; [|done].
        apply char_eqb_eq in E. subst d.
        simpl in Hd. rewrite Hc, Hlt in Hd. discriminate. }
      rewrite Hnone, Hlc, IH. simpl.
      destruct (HeaderParse.trim_end name) as [|d t] eqn:E; [|done].
      apply trim_end_all_space in E. simpl in Hall. rewrite E, andb_true_r in Hall.
      by rewrite Hall.
Qed.

Lemma drop_space_trim_end s :
  HeaderParse.drop_space (HeaderParse.trim_end s)
  = HeaderParse.trim_end (HeaderParse.drop_space s).
Proof.
  induction s as [|c s IH]; [done|].
  cbn [HeaderParse.drop_space]. destruct (HeaderParse.is_space c) eqn:Hc.
  - rewrite <- IH. cbn [HeaderParse.trim_end].
    destruct (HeaderParse.trim_end s) as [|d t].
    + by rewrite Hc.
    + cbn [HeaderParse.drop_space]. by rewrite Hc.
  - cbn [HeaderParse.trim_end].
    destruct (HeaderParse.trim_end s) as [|d t]; rewrite ?Hc;
      cbn [HeaderParse.drop_space]; by rewrite Hc.
Qed.

Lemma trim_end_idemp s :
  HeaderParse.trim_end (HeaderParse.trim_end s) = HeaderParse.trim_end s.
Proof.
  induction s as [|c s IH]; [done|]. cbn [HeaderParse.trim_end].
  destruct (HeaderParse.trim_end s) as [|d t] eqn:E.
  - destruct (HeaderParse.is_space c) eqn:Hc; [done|].
    cbn [HeaderParse.trim_end]. by rewrite Hc.
  - change (HeaderParse.trim_end (String c (String d t)))
      with (match HeaderParse.trim_end (String d t) with
            | "" => if HeaderParse.is_space c then "" else String c ""
            | String a b => String c (String a b)
            end).
    by rewrite IH.
Qed.

(** X25: A value of the form [name <address>] is split at the bracket: the
    address is the text between the brackets, the name is the text before,
    trimmed and without quote characters.  It holds for every one-line name
    without an opening bracket and every one-line address. *)
Theorem name_and_address_split (name_ addr : string)
    (Hlt : Facts.has_char "<" name_ = false)
    (Hline : Facts.one_line name_ = true)
    (Haddr : Facts.one_line addr = true) :
  HeaderParse.parse_address (name_ +:+ " <" +:+ addr +:+ ">")
  = {| name := HeaderParse.remove_quotes (HeaderParse.trim name_);
       address := addr |}.
Proof.
  unfold HeaderParse.parse_address.
  assert (Hm : HeaderParse.address_match (name_ +:+ " <" +:+ addr +:+ ">")
               = Some (HeaderParse.trim_end name_, addr)).
  { pose proof (at_head_name_addr name_ addr Hlt Hline Haddr) as H.
    destruct (name_ +:+ " <" +:+ addr +:+ ">");
      cbn [HeaderParse.address_match]; by rewrite H. }
  rewrite Hm. f_equal. f_equal. unfold HeaderParse.trim.
  by rewrite drop_space_trim_end, trim_end_idemp.
Qed.

Lemma name_and_address_split_witness :
  HeaderParse.parse_address
    (String Single.dquote "Doe, John" +:+ String Single.dquote ""
       +:+ " <" +:+ "john@example.org" +:+ ">")
  = {| name := "Doe, John"; address := "john@example.org" |}.
Proof.
  apply (name_and_address_split
           (String Single.dquote "Doe, John" +:+ String Single.dquote "")
           "john@example.org"); reflexivity.
Defined.

(** X26: A header block in which none of the four fields has a non-empty first
    value leaves the summary as the attributes left it: empty subject and
    sender, and the date read from the clock when the message arrived. *)
Theorem empty_header_keeps_defaults
    (parseDate : string → JsDate) (now : Z) (raw : HeaderParse.Raw) (e : Summary)
    (Hsubject : HeaderParse.first_value (HeaderParse.r_subject raw) = None)
    (Hfrom : HeaderParse.first_value (HeaderParse.r_from raw) = None)
    (Hto : HeaderParse.first_value (HeaderParse.r_to raw) = None)
    (Hdate : HeaderParse.first_value (HeaderParse.r_date raw) = None) :
  Listing.on_body now (HeaderParse.parse parseDate raw) e = e.
Proof.
  unfold Listing.on_body, HeaderParse.parse. simpl.
  rewrite Hsubject, Hfrom, Hto, Hdate. by destruct e.
Qed.

Lemma empty_header_keeps_defaults_witness :
  Listing.on_body 5 (HeaderParse.parse (λ _, Invalid)
      {| HeaderParse.r_subject := Some [""]; HeaderParse.r_from := Some [];
         HeaderParse.r_to := None; HeaderParse.r_date := Some [""] |})
    (Listing.fresh 3 5)
  = Listing.fresh 3 5.
Proof.
  apply empty_header_keeps_defaults; reflexivity.
Defined.

(** *** Folder lister: one entry per mailbox *)

Lemma chains_of_length b :
  ∀ k above, length (FolderLister.chains_of k b above) = Facts.count_box b.
Proof.
  induction b as [d ch IH] using Box_nested_ind. intros k above.
  destruct ch as [l|]; [|done].
  rewrite chains_of_children. simpl. f_equal.
  generalize (above ++ [k]) as here. intros here.
  induction IH as [|[k' c] l Hc _ IHl]; simpl; [done|].
  by rewrite length_app, Hc, IHl.
Qed.

Lemma chains_length boxes above :
  length (FolderLister.chains boxes above) = Facts.count_boxes boxes.
Proof.
  induction boxes as [|[k c] r IH]; simpl; [done|].
  by rewrite length_app, chains_of_length, IH.
Qed.

(** X27: The folder list has exactly one entry per mailbox of the tree; in every
    entry [id] and [path] coincide and the unread count is the placeholder
    0. *)
Theorem folder_list_one_entry_per_mailbox
    (boxes : list (string * FolderLister.Box)) :
  length (FolderLister.processBoxes boxes "" []) = Facts.count_boxes boxes
  ∧ Forall (λ f, folder_id f = folder_path f ∧ unread f = 0)
      (FolderLister.processBoxes boxes "" []).
Proof.
  change "" with (FolderLister.path_above []) at 1 2.
  rewrite processBoxes_chains. simpl. split.
  - by rewrite length_fmap, chains_length.
  - apply Forall_fmap, Forall_forall. by intros chain _.
Qed.

(** *** Ids as numbers: the comparator's fallback *)

Lemma pretty_N_char_digit n :
  (n < 10)%N →
  Text.is_digit (pretty_N_char n) = true
  ∧ Z.of_N (Text.code (pretty_N_char n) - 48) = Z.of_N n.
Proof.
  intros Hn.
  assert (n = 0 ∨ n = 1 ∨ n = 2 ∨ n = 3 ∨ n = 4 ∨ n = 5 ∨ n = 6 ∨ n = 7
          ∨ n = 8 ∨ n = 9)%N as Hcases by lia.
  repeat destruct Hcases as [->|Hcases]; try subst n; by compute.
Qed.

Lemma digits_pretty_N_go x :
  ∀ acc s, (0 < x)%N →
    ∃ k, 0 ≤ k ∧
      Listing.digits acc (pretty_N_go x s)
      = Listing.digits (Some (default 0 acc * 10 ^ k + Z.of_N x)) s.
Proof.
  induction (N.lt_wf_0 x) as [x _ IH]. intros acc s Hx.
  rewrite pretty_N_go_step by done.
  destruct (pretty_N_char_digit (x `mod` 10)) as [Hd Hv];
    [by apply N.mod_lt|].
  pose proof (N.div_mod x 10 ltac:(done)) as Hdm.
  destruct (decide (x `div` 10 = 0)%N) as [Hq|Hq].
  - rewrite Hq, pretty_N_go_0. exists 1. split; [lia|].
    cbn [Listing.digits]. rewrite Hd, Hv. do 2 f_equal.
    rewrite Hq in Hdm. set (m := (x `mod` 10)%N) in *. clearbody m.
    set (v := default 0 acc). clearbody v. change (10 ^ 1) with 10. lia.
  - destruct (IH (x `div` 10)%N) with (acc := acc)
      (s := String (pretty_N_char (x `mod` 10)) s) as (k & Hk & ->).
    { apply N.div_lt; lia. }
    { by apply N.neq_0_lt_0. }
    exists (k + 1). split; [lia|].
    cbn [Listing.digits]. rewrite Hd, Hv. do 2 f_equal.
    rewrite Z.pow_add_r by lia. cbn [default].
    set (m := (x `mod` 10)%N) in *. set (q := (x `div` 10)%N) in *.
    clearbody m q. set (v := default 0 acc). clearbody v.
    change (10 ^ 1) with 10. set (pw := 10 ^ k). clearbody pw.
    unfold Datatypes.id. lia.
Qed.

Lemma parseInt_not_dash (c : ascii) r :
  c ≠ "-"%char → Listing.parseInt (String c r) = Listing.digits None (String c r).
Proof.
  intros Hc. unfold Listing.parseInt.
  by destruct c as [[] [] [] [] [] [] [] []].
Qed.

Lemma digits_pretty_pos p :
  Listing.digits None (pretty (N.pos p)) = Some (Z.pos p)
  ∧ ∀ r, pretty (N.pos p) ≠ String "-" r.
Proof.
  unfold pretty, pretty_N. rewrite decide_False by done. split.
  - destruct (digits_pretty_N_go (N.pos p) None "" ltac:(done)) as (k & _ & ->).
    simpl. f_equal.
  - intros r. by apply (pretty_N_go_ne_dash (N.pos p) "" r).
Qed.

(** Rendering a number as an id and reading it back with [parseInt] gives
    the number again. *)
Lemma parseInt_num z : Listing.parseInt (Js.num z) = Some z.
Proof.
  unfold Js.num, pretty, pretty_Z. destruct z as [|p|p].
  - done.
  - destruct (digits_pretty_pos p) as [Hd Hnd].
    change (pretty p) with (pretty (N.pos p)).
    destruct (pretty (N.pos p)) as [|c r] eqn:E; [done|].
    rewrite parseInt_not_dash; [done|]. intros ->. by apply (Hnd r).
  - destruct (digits_pretty_pos p) as [Hd _].
    change (pretty p) with (pretty (N.pos p)).
    change (Listing.parseInt ("-" +:+ pretty (N.pos p)))
      with (Z.opp <$> Listing.digits None (pretty (N.pos p))).
    by rewrite Hd.
Qed.

(** X28: When the date of either summary is invalid, the comparator orders by
    the numeric value of the ids, larger id first, for ids that are
    renderings of numbers (sequence numbers or UIDs). *)
Theorem compare_falls_back_to_numeric_id (a b : Summary) (x y : Z)
    (Hinvalid : date a = Invalid ∨ date b = Invalid)
    (Ha : id a = Js.num x) (Hb : id b = Js.num y) :
  Listing.compare a b = y - x.
Proof.
  unfold Listing.compare. rewrite Ha, Hb, !parseInt_num.
  destruct Hinvalid as [-> | ->]; [done|]. by destruct (date a).
Qed.

Lemma compare_falls_back_to_numeric_id_witness :
  Listing.compare
    {| id := "17"; uid := Some "17"; subject := ""; 
       from := {| name := ""; address := "" |}; to := [];
       date := Invalid; body := ""; isRead := true; hasAttachments := false |}
    {| id := "42"; uid := Some "42"; subject := "";
       from := {| name := ""; address := "" |}; to := [];
       date := Valid 0; body := ""; isRead := true; hasAttachments := false |}
  = 42 - 17.
Proof.
  apply (compare_falls_back_to_numeric_id _ _ 17 42); [by left|reflexivity|reflexivity].
Defined.

(** *** Send and forward use the same transport *)

(** X23: Without an [smtpConfig] in the request, the send route builds the same
    transport as the forward route: the derived host, port 587, no TLS on
    connect, and the credentials of the session's IMAP connection. *)
Theorem send_default_transport_is_forward_transport
    (imap : Session.Imap) (e : Send.Email)
    (Hnone : Send.smtpConfig e = None) :
  Send.transport imap e = Forward.transport imap
  ∧ Forward.smtp_port (Send.transport imap e) = 587
  ∧ Forward.smtp_secure (Send.transport imap e) = false
  ∧ Forward.auth_user (Send.transport imap e) = Session.user imap
  ∧ Forward.auth_pass (Send.transport imap e) = Session.password imap.
Proof.
  unfold Send.transport, Forward.transport, Send.smtpHost, Send.smtpPort,
    Send.smtpSecure. rewrite Hnone. simpl.
  split_and!; done.
Qed.

Lemma send_default_transport_is_forward_transport_witness :
  let imap := {| Session.user := "a@gmx.net"; Session.password := "pa";
                 Session.host := "imap.gmx.net" |} in
  let e := {| Send.to := Some (Forward.Many ["b@web.de"; "c@web.de"]);
              Send.cc := None; Send.bcc := None; Send.subject := Some "hi";
              Send.text := Some "hi"; Send.html := None;
              Send.smtpConfig := None |} in
  Send.transport imap e = Forward.transport imap
  ∧ Forward.smtp_port (Send.transport imap e) = 587
  ∧ Forward.smtp_secure (Send.transport imap e) = false
  ∧ Forward.auth_user (Send.transport imap e) = Session.user imap
  ∧ Forward.auth_pass (Send.transport imap e) = Session.password imap.
Proof.
  intros imap e. apply (send_default_transport_is_forward_transport imap e).
  reflexivity.
Defined.
